(** * A shallow embedding of the CEO-Python chat client

    The development follows the three source modules that carry behaviour:
    - [groq_client.py]: message windowing and the chunked response streamer;
    - [chat_db.py]: the message store and the current-conversation query;
    - [app.py]: the chunk consumer ([process_stream]) and the [ask] command.

    Python strings are sequences of code points.  They are embedded as
    [string], each character read as a code point below 256 (Latin-1), which
    covers every literal of the sources.  Dictionaries with string values
    ([Dict[str, str]]) are [gmap string string]; dictionaries with a fixed
    set of heterogeneous keys are records.  Integers are [Z], floats that
    are only passed along are [Q].

    The outside world is explicit: the completion client is a function from
    the request to what the API does, the clock readings and the lines typed
    by the user are arguments, and the state of the storage layer is a field
    of the store.  Writing to the console and logging are left out. *)

From Stdlib Require Import ZArith Lia QArith Ascii String Sorted.
From stdpp Require Import base option list strings gmap.

Open Scope string_scope.
Open Scope list_scope.
Open Scope Z_scope.

(** ** Python string primitives *)

Module PyStr.

Definition chr (n : nat) : string := String (ascii_of_nat n) "".

(** [str.isspace] on one code point below 256. *)
Definition isspace (c : ascii) : bool :=
  let n := nat_of_ascii c in
  ((9 <=? n) && (n <=? 13) || (28 <=? n) && (n <=? 32)
   || (n =? 133) || (n =? 160))%nat.

(** [str.lower] on one code point below 256: the ASCII capitals and the
    Latin-1 capitals 192..222 except the multiplication sign 215. *)
Definition lower_char (c : ascii) : ascii :=
  let n := nat_of_ascii c in
  if ((65 <=? n) && (n <=? 90)
      || (192 <=? n) && (n <=? 222) && negb (n =? 215))%nat
  then ascii_of_nat (n + 32) else c.

Fixpoint lower (s : string) : string :=
  match s with
  | EmptyString => EmptyString
  | String c s' => String (lower_char c) (lower s')
  end.

Definition is_empty (s : string) : bool :=
  match s with EmptyString => true | String _ _ => false end.

(** [s.split()] with no argument: the maximal runs of non-space
    characters, in order.  [cur] is the word being read. *)
Fixpoint split_from (cur : string) (s : string) : list string :=
  match s with
  | EmptyString => if is_empty cur then [] else [cur]
  | String c s' =>
      if isspace c
      then (if is_empty cur then split_from "" s'
            else cur :: split_from "" s')
      else split_from (cur +:+ String c "") s'
  end.

Definition split (s : string) : list string := split_from "" s.

Fixpoint lstrip (s : string) : string :=
  match s with
  | EmptyString => EmptyString
  | String c s' => if isspace c then lstrip s' else s
  end.

Fixpoint rstrip (s : string) : string :=
  match s with
  | EmptyString => EmptyString
  | String c s' =>
      let r := rstrip s' in
      if isspace c && is_empty r then EmptyString else String c r
  end.

Definition strip (s : string) : string := rstrip (lstrip s).

(** [''.join(parts)] *)
Definition join (parts : list string) : string :=
  foldr String.app "" parts.

(** [len(s)] as a Python integer. *)
Definition len (s : string) : Z := Z.of_nat (String.length s).

(** [xs[-n:]] for a positive literal [n]: the last [n] items, or all of
    them when there are fewer. *)
Definition last_n {A} (n : nat) (xs : list A) : list A :=
  drop (length xs - n) xs.

End PyStr.

(** ** groq_client.py *)

Module Groq.
Import PyStr.

(** A chat message is a [Dict[str, str]]; [msg.get('role')] is a lookup. *)
Abbreviation message := (gmap string string).

Definition mk_message (r c : string) : message :=
  <["role" := r]> (<["content" := c]> ∅).

Definition DEFAULT_MODEL : string :=
  "meta-llama/llama-4-scout-17b-16e-instruct".
Definition DEFAULT_TEMPERATURE : Q := (3 # 10)%Q.
Definition DEFAULT_MAX_TOKENS : Z := 1024.

Definition SYSTEM_PROMPT : message :=
  mk_message "system"
    ("Eres el CEO de una multinacional experta en Python. Tu misi"
     +:+ chr 243 +:+ "n es guiar a un desarrollador junior con orientaci"
     +:+ chr 243 +:+ "n profesional: arquitectura de software, principios SOLID, buenas pr"
     +:+ chr 225 +:+ "cticas, Clean Architecture, CI/CD, testing. Debes responder con claridad, profesionalidad y honestidad. Si no sabes algo, debes decir expl"
     +:+ chr 237 +:+ "citamente " +:+ chr 34 +:+ "No tengo informaci"
     +:+ chr 243 +:+ "n al respecto" +:+ chr 34
     +:+ " y no inventes respuestas. Tus respuestas deben incluir ejemplos de c"
     +:+ chr 243 +:+ "digo real, referencias a documentaci"
     +:+ chr 243 +:+ "n oficial, y seguir estilos de c"
     +:+ chr 243 +:+ "digo Python modernos (PEP 8, tipado, docstrings).").

(** [msg.get('role') == 'system'] *)
Definition is_system (m : message) : bool :=
  bool_decide (m !! "role" = Some "system").

(** Lines 76-77 of [stream_response]: make sure a system prompt exists. *)
Definition ensure_system (messages : list message) : list message :=
  if existsb is_system messages then messages
  else SYSTEM_PROMPT :: messages.

(** Lines 81-88 of [stream_response]: keep the system messages and the
    last 20 others once there are more than 21 messages. *)
Definition limit_messages (messages : list message) : list message :=
  if (21 <? Z.of_nat (length messages))%Z then
    let system_msgs := List.filter is_system messages in
    let non_system_msgs :=
      List.filter (fun m => negb (is_system m)) messages in
    let recent_msgs := last_n 20 non_system_msgs in
    system_msgs ++ recent_msgs
  else messages.

Definition window_messages (messages : list message) : list message :=
  limit_messages (ensure_system messages).

(** *** The completion API, as the streamer sees it *)

Record request := {
  req_model : string;
  req_messages : list message;
  req_temperature : Q;
  req_max_completion_tokens : Z;
}.

Record Delta := { content : option string }.
Record Choice := { delta : option Delta }.
Record ApiChunk := { choices : list Choice }.

(** What [client.chat.completions.create] does: it raises at once, or it
    hands back a stream of items at whose end the iteration stops
    ([None]) or raises ([Some e], [e] being [str] of the exception). *)
Inductive api_response :=
| CreateRaises (e : string)
| Streaming (items : list ApiChunk) (fin : option string).

(** *** Chunk events *)

Record usage := { tokens : Z; total_tokens : Z }.

Record chunk_event := {
  chunk : string;
  finished : bool;
  chunk_usage : usage;
  error : option string;
}.

Definition usage_of (text : string) : usage :=
  {| tokens := len text / 4; total_tokens := len text / 4 |}.

Definition text_event (text : string) (fin : bool) : chunk_event :=
  {| chunk := text; finished := fin;
     chunk_usage := usage_of text; error := None |}.

Definition error_prefix : string :=
  "Error en la generaci" +:+ chr 243 +:+ "n: ".

Definition error_event (error_msg : string) : chunk_event :=
  {| chunk := ""; finished := true;
     chunk_usage := {| tokens := 0; total_tokens := 0 |};
     error := Some error_msg |}.

(** *** The callback and the observable trace *)

(** A call of [on_chunk] returns a boolean or raises. *)
Inductive cb_result := CbReturn (b : bool) | CbRaise (e : string).

(** The [metadata] argument is [{}] or [{'error': msg}]. *)
Abbreviation cb_metadata := (option string).

(** What a run of the generator does, in order: the request it sends,
    an exception the client raises into it, the events it yields and
    the calls it makes to [on_chunk]. *)
Inductive action :=
| ApiCall (req : request)
| ApiError (e : string)
| Yield (ev : chunk_event)
| Callback (text : string) (fin : bool) (md : cb_metadata)
           (res : cb_result).

Inductive completion := Returned | Propagated (e : string).

Inductive loop_exit := Exhausted | Broke | Raised (e : string).

(** [if not chunk.choices or not chunk.choices[0].delta: continue] *)
Definition chunk_delta (ch : ApiChunk) : option Delta :=
  match choices ch with
  | [] => None
  | c :: _ => delta c
  end.

(** [chunk.choices[0].delta.content or ''] *)
Definition delta_text (d : Delta) : string := default "" (content d).

Definition yields (tr : list action) : list chunk_event :=
  omap (fun a => match a with Yield ev => Some ev | _ => None end) tr.

Section Streamer.
(** The callback may keep state of its own between calls. *)
Context {S : Type}.

Definition callback :=
  S -> string -> bool -> cb_metadata -> cb_result * S.

Record loop_result := {
  lr_trace : list action;
  lr_exit : loop_exit;
  lr_buffer : list string;
  lr_state : S;
}.

Definition lr_cons (pre : list action) (r : loop_result) : loop_result :=
  {| lr_trace := pre ++ lr_trace r; lr_exit := lr_exit r;
     lr_buffer := lr_buffer r; lr_state := lr_state r |}.

(** The [for chunk in stream] loop (lines 102-127), run until the
    stream ends, the callback says stop, or something raises. *)
Fixpoint stream_loop (chunk_size : Z) (on_chunk : option callback)
    (items : list ApiChunk) (fin : option string)
    (buffer : list string) (word_count : Z) (s : S) : loop_result :=
  match items with
  | [] =>
      match fin with
      | None =>
          {| lr_trace := []; lr_exit := Exhausted;
             lr_buffer := buffer; lr_state := s |}
      | Some e =>
          {| lr_trace := [ApiError e]; lr_exit := Raised e;
             lr_buffer := buffer; lr_state := s |}
      end
  | ch :: rest =>
      match chunk_delta ch with
      | None => stream_loop chunk_size on_chunk rest fin buffer word_count s
      | Some d =>
          let content := delta_text d in
          let buffer := buffer ++ [content] in
          let word_count :=
            word_count + Z.of_nat (length (split content)) in
          if (chunk_size <=? word_count)%Z then
            let joined_content := join buffer in
            let result := text_event joined_content false in
            match on_chunk with
            | None =>
                lr_cons [Yield result]
                  (stream_loop chunk_size on_chunk rest fin [] 0 s)
            | Some f =>
                let '(res, s') := f s joined_content false None in
                let pre :=
                  [Yield result; Callback joined_content false None res] in
                match res with
                | CbReturn true =>
                    lr_cons pre
                      (stream_loop chunk_size on_chunk rest fin [] 0 s')
                | CbReturn false =>
                    {| lr_trace := pre; lr_exit := Broke;
                       lr_buffer := []; lr_state := s' |}
                | CbRaise e =>
                    {| lr_trace := pre; lr_exit := Raised e;
                       lr_buffer := []; lr_state := s' |}
                end
            end
          else stream_loop chunk_size on_chunk rest fin buffer word_count s
      end
  end.

(** The [except Exception] handler (lines 144-156). *)
Definition on_exception (on_chunk : option callback) (e : string)
    (s : S) : list action * completion * S :=
  let error_msg := error_prefix +:+ e in
  match on_chunk with
  | None => ([Yield (error_event error_msg)], Returned, s)
  | Some f =>
      let '(res, s') := f s "" true (Some error_msg) in
      ([Yield (error_event error_msg);
        Callback "" true (Some error_msg) res],
       match res with
       | CbReturn _ => Returned
       | CbRaise e' => Propagated e'
       end, s')
  end.

(** Lines 129-142: emit what is left in the buffer. *)
Definition flush_buffer (on_chunk : option callback)
    (buffer : list string) (s : S) : list action * completion * S :=
  match buffer with
  | [] => ([], Returned, s)
  | _ :: _ =>
      let final_chunk := join buffer in
      let result := text_event final_chunk true in
      match on_chunk with
      | None => ([Yield result], Returned, s)
      | Some f =>
          let '(res, s') := f s final_chunk true None in
          let pre := [Yield result; Callback final_chunk true None res] in
          match res with
          | CbReturn _ => (pre, Returned, s')
          | CbRaise e =>
              let '(tr, c, s'') := on_exception on_chunk e s' in
              (pre ++ tr, c, s'')
          end
      end
  end.

(** Lines 93-127: the call of the client and the loop over its
    stream. *)
Definition open_stream (client : request -> api_response)
    (req : request) (chunk_size : Z) (on_chunk : option callback)
    (s : S) : loop_result :=
  match client req with
  | CreateRaises e =>
      {| lr_trace := [ApiError e]; lr_exit := Raised e;
         lr_buffer := []; lr_state := s |}
  | Streaming items fin =>
      stream_loop chunk_size on_chunk items fin [] 0 s
  end.

(** Lines 129-156: what follows the loop. *)
Definition close_stream (on_chunk : option callback) (r : loop_result)
    : list action * completion * S :=
  match lr_exit r with
  | Raised e => on_exception on_chunk e (lr_state r)
  | Exhausted | Broke => flush_buffer on_chunk (lr_buffer r) (lr_state r)
  end.

(** [stream_response], consumed to its end.  The result is the sequence
    of its actions, how the generator ended, and the callback's last
    state. *)
Definition stream_response (client : request -> api_response)
    (messages : list message) (model : string) (temperature : Q)
    (max_tokens : Z) (chunk_size : Z) (on_chunk : option callback)
    (s : S) : list action * completion * S :=
  let messages := window_messages messages in
  let req := {| req_model := model; req_messages := messages;
                req_temperature := temperature;
                req_max_completion_tokens := max_tokens |} in
  let r := open_stream client req chunk_size on_chunk s in
  let '(tl, c, s') := close_stream on_chunk r in
  (ApiCall req :: lr_trace r ++ tl, c, s').

End Streamer.

End Groq.

(** ** chat_db.py *)

Module ChatDB.
Import PyStr.

(** A row of the [messages] table.  [created_at] is a point in time on
    an integer scale (for instance microseconds since the epoch). *)
Record Message := {
  id : Z;
  role : string;
  content : string;
  created_at : Z;
}.

(** The table in physical (insertion) order, the next value of the
    primary-key sequence, and the state of the storage layer:
    [engine_error = Some e] when the session raises [e] (connection
    lost, constraint violated, ...). *)
Record database := {
  rows : list Message;
  next_id : Z;
  engine_error : option string;
}.

Definition empty_db : database :=
  {| rows := []; next_id := 1; engine_error := None |}.

Inductive exn :=
| ValueError (msg : string)
| SQLAlchemyError (msg : string).

Inductive result (A : Type) :=
| Ok (a : A)
| Raise (e : exn).
Arguments Ok {A} a.
Arguments Raise {A} e.

(** The values a caller can pass where a [str] is expected. *)
Inductive pyval :=
| PStr (s : string)
| PNone
| PInt (n : Z).

Definition truthy (v : pyval) : bool :=
  match v with
  | PStr s => negb (is_empty s)
  | PNone => false
  | PInt n => negb (n =? 0)
  end.

Definition isinstance_str (v : pyval) : bool :=
  match v with PStr _ => true | _ => false end.

(** The dictionaries handed back to callers. *)
Record message_dict := {
  d_id : Z;
  d_role : string;
  d_content : string;
  d_created_at : option Z;
}.

Definition to_dict (m : Message) : message_dict :=
  {| d_id := id m; d_role := role m; d_content := content m;
     d_created_at := Some (created_at m) |}.

(** The text of an argument that passed the [isinstance(_, str)] test. *)
Definition str_of (v : pyval) : string :=
  match v with PStr s => s | _ => "" end.

Definition add_message (db : database) (now : Z) (role content : pyval)
    : result message_dict * database :=
  if negb (truthy role) || negb (isinstance_str role) then
    (Raise (ValueError "El rol es requerido y debe ser un string"), db)
  else if negb (truthy content) || negb (isinstance_str content) then
    (Raise (ValueError "El contenido es requerido y debe ser un string"), db)
  else
    match engine_error db with
    | Some e =>
        (Raise (SQLAlchemyError ("Error al agregar mensaje: " +:+ e)), db)
    | None =>
        let message := {| id := next_id db; role := lower (str_of role);
                          content := str_of content; created_at := now |} in
        (Ok (to_dict message),
         {| rows := rows db ++ [message]; next_id := next_id db + 1;
            engine_error := None |})
    end.

(** SQL [LIKE]: [%] matches any run of characters, [_] any one
    character, a backslash takes the next pattern character literally. *)
Fixpoint like (p s : string) : bool :=
  match p with
  | EmptyString => is_empty s
  | String c p' =>
      if Ascii.eqb c "%" then
        (fix any (s : string) : bool :=
           like p' s
           || match s with
              | EmptyString => false
              | String _ s' => any s'
              end) s
      else if Ascii.eqb c "_" then
        match s with
        | EmptyString => false
        | String _ s' => like p' s'
        end
      else if Ascii.eqb c "\" then
        match p', s with
        | String c' p'', String d s' => Ascii.eqb c' d && like p'' s'
        | _, _ => false
        end
      else
        match s with
        | EmptyString => false
        | String d s' => Ascii.eqb c d && like p' s'
        end
  end.

Definition ilike (p s : string) : bool := like (lower p) (lower s).

Definition separator_pattern : string :=
  "--- NUEVA CONVERSACI" +:+ chr 211 +:+ "N%".

Definition separator_prefix : string :=
  "--- NUEVA CONVERSACI" +:+ chr 211 +:+ "N INICIADA: ".

(** [ORDER BY created_at DESC] as a stable insertion sort over the
    physical order; rows with equal timestamps keep their order. *)
Fixpoint insert_desc (m : Message) (l : list Message) : list Message :=
  match l with
  | [] => [m]
  | x :: l' =>
      if created_at x <=? created_at m then m :: l
      else x :: insert_desc m l'
  end.

Definition order_by_created_at_desc (l : list Message) : list Message :=
  foldr insert_desc [] l.

Fixpoint insert_asc (m : Message) (l : list Message) : list Message :=
  match l with
  | [] => [m]
  | x :: l' =>
      if created_at m <=? created_at x then m :: l
      else x :: insert_asc m l'
  end.

Definition order_by_created_at (l : list Message) : list Message :=
  foldr insert_asc [] l.

Definition is_separator (m : Message) : bool :=
  String.eqb (role m) "system" && like separator_pattern (content m).

(** The separator query of [get_all_messages] (lines 148-157). *)
Definition last_separator_id (db : database) : option Z :=
  match order_by_created_at_desc (List.filter is_separator (rows db)) with
  | [] => None
  | m :: _ => Some (id m)
  end.

Definition str_truthy (o : option string) : option string :=
  match o with
  | Some s => if is_empty s then None else Some s
  | None => None
  end.

(** The filters of [get_all_messages] (lines 160-170). *)
Definition filtered (db : database) (search role : option string)
    (current_conversation_only : bool) : list Message :=
  let last_separator_id :=
    if current_conversation_only then last_separator_id db else None in
  let query := rows db in
  let query :=
    match last_separator_id with
    | Some sid =>
        if current_conversation_only && negb (sid =? 0)
        then List.filter (fun m => sid <=? id m) query
        else query
    | None => query
    end in
  let query :=
    match str_truthy search with
    | Some s =>
        List.filter (fun m => ilike ("%" +:+ s +:+ "%") (content m)) query
    | None => query
    end in
  match str_truthy role with
  | Some r => List.filter (fun m => String.eqb (ChatDB.role m) (lower r)) query
  | None => query
  end.

(** [limit if limit and limit > 0 else 100] *)
Definition effective_limit (limit : option Z) : Z :=
  match limit with
  | Some n => if negb (n =? 0) && (0 <? n) then n else 100
  | None => 100
  end.

Definition get_all_messages (db : database) (limit : option Z)
    (offset : Z) (search role : option string)
    (current_conversation_only : bool)
    : result (list message_dict * Z) :=
  match engine_error db with
  | Some e => Raise (SQLAlchemyError ("Error al obtener mensajes: " +:+ e))
  | None =>
      let query := filtered db search role current_conversation_only in
      let total := Z.of_nat (length query) in
      if offset <? 0 then
        (* the database rejects a negative OFFSET; the text of its
           message is abridged *)
        Raise (SQLAlchemyError
                 ("Error al obtener mensajes: " +:+
                  "OFFSET must not be negative"))
      else
        let db_messages :=
          take (Z.to_nat (effective_limit limit))
            (drop (Z.to_nat offset) (order_by_created_at_desc query)) in
        Ok (to_dict <$> db_messages, total)
  end.

Definition get_messages_by_role (db : database) (role : string)
    (limit : option Z) : result (list Message) :=
  match engine_error db with
  | Some e =>
      Raise (SQLAlchemyError ("Error al obtener mensajes por rol: " +:+ e))
  | None =>
      let query :=
        order_by_created_at
          (List.filter (fun m => String.eqb (ChatDB.role m) (lower role))
             (rows db)) in
      Ok (match limit with
          | Some n =>
              if negb (n =? 0) && (0 <? n) then take (Z.to_nat n) query
              else query
          | None => query
          end)
  end.

Definition clear_chat_history (db : database) : result unit * database :=
  match engine_error db with
  | Some e =>
      (Raise (SQLAlchemyError ("Error al limpiar el historial: " +:+ e)), db)
  | None =>
      (Ok tt, {| rows := []; next_id := next_id db; engine_error := None |})
  end.

Section Clock.
(** [datetime.strftime("%Y-%m-%d %H:%M:%S UTC")] of a point in time. *)
Variable strftime : Z -> string.

(** [create_new_conversation] reads the clock twice: once for the text
    of the separator and once for [created_at].  It answers [True], or
    [False] after a storage error. *)
Definition create_new_conversation (db : database) (now now' : Z)
    : bool * database :=
  let timestamp := strftime now in
  let separator_message := separator_prefix +:+ timestamp +:+ " ---" in
  match engine_error db with
  | Some _ => (false, db)
  | None =>
      let new_message := {| id := next_id db; role := "system";
                            content := separator_message;
                            created_at := now' |} in
      (true,
       {| rows := rows db ++ [new_message]; next_id := next_id db + 1;
          engine_error := None |})
  end.
End Clock.

End ChatDB.

(** ** app.py *)

Module App.
Import PyStr.
Export Groq.
Export ChatDB.

(** [CONFIG]: the entries that steer the control flow. *)
Definition max_chunk_size : Z := 30.
Definition confirm_continue : bool := true.

(** [on_chunk_callback]: keeps no state and always says continue. *)
Definition on_chunk_callback : @callback unit :=
  fun s _ _ _ => (CbReturn true, s).

(** Values of the metadata dictionary returned by [process_stream]. *)
Inductive value :=
| VStr (s : string)
| VInt (n : Z)
| VFloat (q : Q)
| VBool (b : bool).

Abbreviation metadata := (gmap string value).

(** [not metadata.get(key)] tests the truth value of the entry. *)
Definition value_truthy (v : value) : bool :=
  match v with
  | VStr s => negb (is_empty s)
  | VInt n => negb (n =? 0)
  | VFloat q => negb (Qeq_bool q 0)
  | VBool b => b
  end.

Definition get_truthy (md : metadata) (key : string) : bool :=
  match md !! key with
  | Some v => value_truthy v
  | None => false
  end.

(** What [input()] gives at the confirmation pause: a line, Ctrl-C
    ([KeyboardInterrupt]) or the end of standard input ([EOFError]). *)
Inductive user_input :=
| Line (s : string)
| CtrlC
| EndOfInput.

Inductive loop_end :=
| LoopDone (last : option chunk_event)
| KeyboardInterrupt
| Exception (e : string).

(** [chunk_data.get('error')] as a truth value. *)
Definition has_error (ev : chunk_event) : bool :=
  match error ev with
  | Some e => negb (is_empty e)
  | None => false
  end.

(** The loop of [process_stream] (lines 111-139).  [gen_end] is how the
    generator ends once all of [events] have been taken; [last] is the
    binding of [chunk_data]. *)
Fixpoint consume (events : list chunk_event) (gen_end : completion)
    (inputs : list user_input) (full_response current_chunk : list string)
    (last : option chunk_event) : list string * loop_end :=
  match events with
  | [] =>
      match gen_end with
      | Returned => (full_response, LoopDone last)
      | Propagated e => (full_response, Exception e)
      end
  | chunk_data :: rest =>
      if has_error chunk_data then (full_response, LoopDone (Some chunk_data))
      else
        let chunk := Groq.chunk chunk_data in
        let current_chunk := current_chunk ++ [chunk] in
        let full_response := full_response ++ [chunk] in
        if (max_chunk_size * 3 <? Z.of_nat (length (split (join current_chunk))))
           && confirm_continue && negb (finished chunk_data)
        then
          match inputs with
          | Line l :: inputs' =>
              if String.eqb (lower l) "q"
              then (full_response, LoopDone (Some chunk_data))
              else consume rest gen_end inputs' full_response []
                     (Some chunk_data)
          | CtrlC :: _ => (full_response, KeyboardInterrupt)
          | EndOfInput :: _ | [] =>
              (full_response, Exception "EOF when reading a line")
          end
        else consume rest gen_end inputs full_response current_chunk
               (Some chunk_data)
  end.

Definition process_stream (client : request -> api_response)
    (inputs : list user_input) (start_time end_time : Q)
    (messages : list message) (model : string) (max_tokens : Z)
    (temperature : Q) : string * metadata :=
  let '(tr, gen_end, _) :=
    stream_response client messages model temperature max_tokens
      max_chunk_size (Some on_chunk_callback) tt in
  let '(full_response, how) := consume (yields tr) gen_end inputs [] [] None in
  match how with
  | LoopDone last =>
      (join full_response,
       <["model" := VStr model]>
         (<["tokens" := VInt (match last with
                              | Some chunk_data =>
                                  total_tokens (chunk_usage chunk_data)
                              | None => 0
                              end)]>
            (<["time_elapsed" := VFloat (end_time - start_time)]> ∅)))
  | KeyboardInterrupt =>
      (join full_response, <["interrupted" := VBool true]> ∅)
  | Exception e =>
      (join full_response, <["error" := VStr e]> ∅)
  end.

(** What the command shell sees of [ask]: the exit code ([None] when the
    command returns normally) and the message store afterwards. *)
Record ask_outcome := {
  exit_code : option Z;
  db_after : database;
  returned : option (string * metadata);
}.

Definition api_role (d : message_dict) : string :=
  if String.eqb (d_role d) "user" then "user" else "assistant".

(** [max(0, min(1, temperature))] *)
Definition clamp01 (t : Q) : Q :=
  let m := if Qle_bool 1 t then 1%Q else t in
  if Qle_bool m 0 then 0%Q else m.

(** The [ask] command.  [now1] and [now2] are the clock readings at the
    two insertions. *)
Definition ask (client : request -> api_response)
    (inputs : list user_input) (start_time end_time : Q) (now1 now2 : Z)
    (db : database) (question : string) (model : string)
    (temperature : Q) (max_tokens : Z) : ask_outcome :=
  if is_empty (strip question) then
    {| exit_code := Some 1; db_after := db; returned := None |}
  else if bool_decide (lower question ∈ ["exit"; "quit"; "salir"]) then
    {| exit_code := Some 0; db_after := db; returned := None |}
  else
    match add_message db now1 (PStr "user") (PStr question) with
    | (Raise _, db1) =>
        {| exit_code := Some 1; db_after := db1; returned := None |}
    | (Ok _, db1) =>
        match get_all_messages db1 (Some 20) 0 None None true with
        | Raise _ =>
            {| exit_code := Some 1; db_after := db1; returned := None |}
        | Ok (message_records, _) =>
            let messages :=
              (fun msg => mk_message (api_role msg) (d_content msg))
                <$> message_records in
            let '(response, metadata) :=
              process_stream client inputs start_time end_time
                messages model max_tokens (clamp01 temperature) in
            if negb (get_truthy metadata "interrupted")
               && negb (get_truthy metadata "error")
            then
              match add_message db1 now2 (PStr "assistant") (PStr response) with
              | (Raise _, db2) =>
                  {| exit_code := Some 1; db_after := db2;
                     returned := Some (response, metadata) |}
              | (Ok _, db2) =>
                  {| exit_code := None; db_after := db2;
                     returned := Some (response, metadata) |}
              end
            else
              {| exit_code := None; db_after := db1;
                 returned := Some (response, metadata) |}
        end
    end.

End App.

(** ** groq_client.py: stream_chat_response *)

Module GroqChat.
Import PyStr Groq.

Definition separator_start : string :=
  "--- NUEVA CONVERSACI" +:+ chr 211 +:+ "N".

(** [msg.get("role") == "system" and isinstance(msg.get("content"), str)
    and msg.get("content").startswith("--- NUEVA CONVERSACIÓN")] *)
Definition is_separator (msg : message) : bool :=
  bool_decide (msg !! "role" = Some "system")
  && match msg !! "content" with
     | Some c => String.prefix separator_start c
     | None => false
     end.

(** The [for i, msg in enumerate(history)] loop (lines 186-193):
    [history[i+1:]] for the first separator, if there is one. *)
Fixpoint after_first_separator (history : list message)
    : option (list message) :=
  match history with
  | [] => None
  | msg :: rest =>
      if is_separator msg then Some rest else after_first_separator rest
  end.

(** Lines 178-200: the messages of the request. *)
Definition chat_messages (question : string)
    (history : option (list message)) : list message :=
  match history with
  | Some ((_ :: _) as history) =>
      let history :=
        if (40 <? Z.of_nat (length history))%Z then last_n 40 history
        else history in
      let history := default history (after_first_separator history) in
      [SYSTEM_PROMPT] ++ history ++ [mk_message "user" question]
  | Some [] | None =>
      [SYSTEM_PROMPT; mk_message "user" question]
  end.

Inductive chat_outcome :=
| ChatReturned (full_response : string)
| ChatRaised (e : string).

Record chat_run {S : Type} := {
  cr_request : request;
  cr_delivered : list string;
  cr_outcome : chat_outcome;
  cr_state : S;
}.
Arguments chat_run : clear implicits.

Section Chat.
Context {S : Type}.

(** [on_token] returns ([None]) or raises ([Some e]). *)
Definition token_callback := S -> string -> option string * S.

(** The loop over the stream (lines 213-217).  An item without a choice
    makes [chunk.choices[0]] raise IndexError, a choice without a delta
    makes [.content] raise AttributeError.  The result is the tokens
    handed to [on_token], the outcome and the callback's last state. *)
Fixpoint chat_loop (on_token : option token_callback)
    (items : list ApiChunk) (fin : option string)
    (full_response : string) (s : S) : list string * chat_outcome * S :=
  match items with
  | [] =>
      match fin with
      | None => ([], ChatReturned full_response, s)
      | Some e => ([], ChatRaised e, s)
      end
  | chunk :: rest =>
      match choices chunk with
      | [] => ([], ChatRaised "list index out of range", s)
      | c :: _ =>
          match delta c with
          | None =>
              ([], ChatRaised
                     "'NoneType' object has no attribute 'content'", s)
          | Some d =>
              let token := delta_text d in
              let full_response := full_response +:+ token in
              match on_token with
              | None => chat_loop on_token rest fin full_response s
              | Some f =>
                  let '(r, s') := f s token in
                  match r with
                  | Some e => ([token], ChatRaised e, s')
                  | None =>
                      let '(delivered, out, s'') :=
                        chat_loop on_token rest fin full_response s' in
                      (token :: delivered, out, s'')
                  end
              end
          end
      end
  end.

(** [stream_chat_response]: the handler logs and raises again, so an
    exception of the body is the outcome of the call. *)
Definition stream_chat_response (client : request -> api_response)
    (question : string) (history : option (list message))
    (on_token : option token_callback) (s : S) : chat_run S :=
  let messages := chat_messages question history in
  let req := {| req_model := DEFAULT_MODEL; req_messages := messages;
                req_temperature := DEFAULT_TEMPERATURE;
                req_max_completion_tokens := DEFAULT_MAX_TOKENS |} in
  match client req with
  | CreateRaises e =>
      {| cr_request := req; cr_delivered := [];
         cr_outcome := ChatRaised e; cr_state := s |}
  | Streaming items fin =>
      let '(delivered, out, s') := chat_loop on_token items fin "" s in
      {| cr_request := req; cr_delivered := delivered;
         cr_outcome := out; cr_state := s' |}
  end.
End Chat.

End GroqChat.

(** ** chat_db.py: get_chat_summary *)

Module ChatSummary.
Import PyStr ChatDB.

Record summary := {
  total_messages : Z;
  user_messages : Z;
  assistant_messages : Z;
  first_message : option Z;
  last_message : option Z;
  avg_message_length : Q;
}.

(** [db.query(Message).filter_by(role=r).count()] *)
Definition count_role (r : string) (l : list Message) : Z :=
  Z.of_nat (length (List.filter (fun m => String.eqb (role m) r) l)).

Definition sum_lengths (l : list Message) : Z :=
  foldr (fun m n => len (content m) + n) 0 l.

(** [func.avg(func.length(Message.content))]: NULL on an empty table. *)
Definition avg_length (l : list Message) : option Q :=
  match l with
  | [] => None
  | _ :: _ => Some (sum_lengths l # Pos.of_nat (length l))
  end.

(** [x or 0] on the scalar of the average. *)
Definition or_zero (o : option Q) : Q :=
  match o with
  | Some q => if Qeq_bool q 0 then 0%Q else q
  | None => 0%Q
  end.

Definition get_chat_summary (db : database) : result summary :=
  match engine_error db with
  | Some e =>
      Raise (SQLAlchemyError ("Error al obtener resumen del chat: " +:+ e))
  | None =>
      let first_msg := head (order_by_created_at (rows db)) in
      let last_msg := head (order_by_created_at_desc (rows db)) in
      Ok {| total_messages := Z.of_nat (length (rows db));
            user_messages := count_role "user" (rows db);
            assistant_messages := count_role "assistant" (rows db);
            first_message := created_at <$> first_msg;
            last_message := created_at <$> last_msg;
            avg_message_length := or_zero (avg_length (rows db)) |}
  end.

End ChatSummary.

(** ** exporter.py *)

Module Exporter.
Import PyStr ChatDB.

(** The objects that reach [export_markdown]: rows of the table (with
    attributes [role] and [content]), dictionaries, lists of dictionaries
    and integers. *)
Inductive pyobj :=
| ObjMessage (m : Message)
| ObjDict (d : message_dict)
| ObjList (items : list message_dict)
| ObjInt (n : Z).

Inductive py_exception :=
| AttributeError (msg : string)
| StoreError (e : exn)
| CalledProcessError (msg : string).

Definition type_name (o : pyobj) : string :=
  match o with
  | ObjMessage _ => "Message"
  | ObjDict _ => "dict"
  | ObjList _ => "list"
  | ObjInt _ => "int"
  end.

Definition no_attribute (o : pyobj) (name : string) : py_exception :=
  AttributeError ("'" +:+ type_name o +:+ "' object has no attribute '"
                  +:+ name +:+ "'").

(** [m.role] and [m.content] *)
Definition get_role (o : pyobj) : py_exception + string :=
  match o with
  | ObjMessage m => inr (role m)
  | _ => inl (no_attribute o "role")
  end.

Definition get_content (o : pyobj) : py_exception + string :=
  match o with
  | ObjMessage m => inr (content m)
  | _ => inl (no_attribute o "content")
  end.

(** [sep.join(parts)] *)
Fixpoint join_with (sep : string) (parts : list string) : string :=
  match parts with
  | [] => ""
  | [p] => p
  | p :: rest => p +:+ sep +:+ join_with sep rest
  end.

Definition newline : string := chr 10.

(** The body of the loop of [export_markdown]: one line block. *)
Definition export_line (m : pyobj) : py_exception + string :=
  match get_role m with
  | inl e => inl e
  | inr r =>
      let prefix :=
        if String.eqb r "user" then "**Usuario**:" else "**Asistente:**" in
      match get_content m with
      | inl e => inl e
      | inr c => inr (prefix +:+ "  " +:+ newline +:+ c)
      end
  end.

Fixpoint export_lines (messages : list pyobj)
    : py_exception + list string :=
  match messages with
  | [] => inr []
  | m :: rest =>
      match export_line m with
      | inl e => inl e
      | inr line =>
          match export_lines rest with
          | inl e => inl e
          | inr lines => inr (line :: lines)
          end
      end
  end.

(** [export_markdown(messages)], [messages] being what the [for] loop
    iterates over. *)
Definition export_markdown (messages : list pyobj)
    : py_exception + string :=
  match export_lines messages with
  | inl e => inl e
  | inr lines => inr (join_with (newline +:+ newline) lines)
  end.

End Exporter.

(** ** app.py: the history and export commands *)

Module AppCommands.
Import PyStr ChatDB Exporter.

Definition EXPORT_FORMATS : list string := ["md"; "pdf"].

(** [history]: the messages that are displayed, in display order ([[]]
    when the command prints that there is no history).  A storage error
    of the query leaves the command as it is. *)
Definition history (db : database) (limit : Z) (full reverse : bool)
    : result (list message_dict) :=
  match get_all_messages db (Some 100) 0 None None true with
  | Raise e => Raise e
  | Ok (messages, _) =>
      match messages with
      | [] => Ok []
      | _ :: _ =>
          Ok (if negb full
              then (if 0 <? limit then last_n (Z.to_nat limit) messages
                    else messages)
              else messages)
      end
  end.

(** What the export command does to the outside world. *)
Inductive effect :=
| MkDir (path : string)
| WriteText (path content : string)
| Pandoc (md_file pdf_file : string).

Inductive command_end :=
| Completed
| Exit (code : Z)
| Uncaught (e : exn).

(** [get_all_messages()] returns a pair; iterating over it gives the
    list of dictionaries and then the total. *)
Definition tuple_items (messages : list message_dict * Z) : list pyobj :=
  [ObjList messages.1; ObjInt messages.2].

(** [export].  [exporter_importable] is whether the import of the
    exporter module works, [pandoc] what the converter does. *)
Definition export (db : database) (exporter_importable : bool)
    (pandoc : option string) (format : string) (output : option string)
    (limit : option Z) : list effect * command_end :=
  if negb exporter_importable then ([], Exit 1)
  else
    let format := lower format in
    if negb (bool_decide (format ∈ EXPORT_FORMATS)) then ([], Exit 1)
    else
      match get_all_messages db (Some 100) 0 None None true with
      | Raise e => ([], Uncaught e)
      | Ok messages =>
          (* [if not messages]: a pair is never empty *)
          let export_dir := "exports" in
          let base_name :=
            match str_truthy output with
            | Some o => o
            | None => "chat_export"
            end in
          let md_file := export_dir +:+ "/" +:+ base_name +:+ ".md" in
          match export_markdown (tuple_items messages) with
          | inl _ => ([MkDir export_dir], Exit 1)
          | inr md_content =>
              if String.eqb format "pdf" then
                let pdf_file :=
                  export_dir +:+ "/" +:+ base_name +:+ ".pdf" in
                match pandoc with
                | Some _ =>
                    ([MkDir export_dir; WriteText md_file md_content;
                      Pandoc md_file pdf_file], Exit 1)
                | None =>
                    ([MkDir export_dir; WriteText md_file md_content;
                      Pandoc md_file pdf_file], Completed)
                end
              else
                ([MkDir export_dir; WriteText md_file md_content], Completed)
          end
      end.

End AppCommands.

(** ** interactive.py *)

Module Interactive.
Import PyStr ChatDB.


Definition newline : string := chr 10.

Section MarkdownFile.
(** [isoformat] of a stored timestamp. *)
Variable isoformat : Z -> string.





End MarkdownFile.

Section Clear.
Variable strftime : Z -> string.

End Clear.

End Interactive.

(** * Vocabulary of the statements *)

Module Notions.
Import PyStr Groq.

Definition non_system (m : message) : bool := negb (is_system m).

Definition sample_history : list message :=
  mk_message "system" "be brief"
  :: ((fun n => mk_message "user" (String (ascii_of_nat (65 + n)) ""))
        <$> seq 0 25).

(** One stream item carrying the text [t]. *)
Definition frag (t : string) : ApiChunk :=
  {| choices := [{| delta := Some {| Groq.content := Some t |} |}] |}.

(** The texts that the loop of [stream_response] appends to its buffer,
    in order: one per item that has a first choice with a delta. *)
Definition fragments (items : list ApiChunk) : list string :=
  omap (fun ch => delta_text <$> chunk_delta ch) items.

(** [len(t.split())] *)
Definition words (t : string) : Z := Z.of_nat (length (split t)).

(** The sum of the word counts of the fragments, each counted alone. *)
Definition word_sum (frs : list string) : Z :=
  foldr (fun t n => words t + n) 0 frs.

Definition non_final (evs : list chunk_event) : list chunk_event :=
  List.filter (fun e => negb (finished e)) evs.

Definition texts (evs : list chunk_event) : list string := chunk <$> evs.

(** [ceil(a / b)] for a positive [b]. *)
Definition ceil_div (a b : Z) : Z := (a + b - 1) / b.

Definition request_of (messages : list message) (model : string)
    (temperature : Q) (max_tokens : Z) : request :=
  {| req_model := model; req_messages := window_messages messages;
     req_temperature := temperature;
     req_max_completion_tokens := max_tokens |}.

(** The callback, if there is one, returns a boolean at every call. *)
Definition never_raises {S} (on_chunk : option (@callback S)) : Prop :=
  forall f, on_chunk = Some f ->
    forall s t b md, exists r, (f s t b md).1 = CbReturn r.

(** The callback, if there is one, says continue at every call. *)
Definition always_continues {S} (on_chunk : option (@callback S)) : Prop :=
  forall f, on_chunk = Some f ->
    forall s t b md, (f s t b md).1 = CbReturn true.

(** A callback that counts its calls and says stop at call number [k]
    (counting from 0). *)
Definition stop_at (k : nat) : @callback nat :=
  fun n _ _ _ => (CbReturn (negb (n =? k)%nat), Datatypes.S n).

(** Sample runs. *)
Definition sample_run {S} (items : list ApiChunk) (fin : option string)
    (chunk_size : Z) (on_chunk : option (@callback S)) (s : S)
    : list action * completion * S :=
  stream_response (fun _ => Streaming items fin) [] DEFAULT_MODEL
    DEFAULT_TEMPERATURE DEFAULT_MAX_TOKENS chunk_size on_chunk s.

Definition sample_request : request :=
  request_of [] DEFAULT_MODEL DEFAULT_TEMPERATURE DEFAULT_MAX_TOKENS.

End Notions.

Module StoreNotions.
Import PyStr ChatDB.


(** The operations of the store, each with the clock readings it makes;
    [SetEngine] is the storage layer failing or recovering. *)
Inductive op :=
| OpAdd (now : Z) (role content : pyval)
| OpNewConversation (now now' : Z)
| OpClear
| OpQuery (limit : option Z) (offset : Z) (search role : option string)
          (current_conversation_only : bool)
| OpByRole (role : string) (limit : option Z)
| SetEngine (e : option string).

Definition apply_op (strftime : Z -> string) (db : database) (o : op)
    : database :=
  match o with
  | OpAdd now role content => (add_message db now role content).2
  | OpNewConversation now now' =>
      (create_new_conversation strftime db now now').2
  | OpClear => (clear_chat_history db).2
  | OpQuery _ _ _ _ _ => db
  | OpByRole _ _ => db
  | SetEngine e =>
      {| rows := rows db; next_id := next_id db; engine_error := e |}
  end.

(** The optional search and role filters of [get_all_messages]. *)
Definition matches_filters (search role : option string) (m : Message)
    : bool :=
  match str_truthy search with
  | Some s => ilike ("%" +:+ s +:+ "%") (content m)
  | None => true
  end
  && match str_truthy role with
     | Some r => String.eqb (ChatDB.role m) (lower r)
     | None => true
     end.

(** Timestamps from latest to earliest. *)
Definition newest_first (l : list Message) : Prop :=
  Sorted (fun a b => created_at b <= created_at a) l.

(** A role and a content that [add_message] would store as a row
    recognised as a conversation separator. *)
Definition separator_like (r c : string) : bool :=
  String.eqb (lower r) "system" && like separator_pattern c.

(** Appending messages one after the other with [add_message]; each
    item is the clock reading, the role and the content. *)
Definition append_all (db : database) (l : list (Z * string * string))
    : database :=
  foldl (fun d '(now, r, c) => (add_message d now (PStr r) (PStr c)).2) db l.

(** A store whose sequence is ahead of its rows, whose rows are all older
    than [now], and whose storage layer works. *)
Definition well_formed (db : database) (now : Z) : Prop :=
  0 < next_id db
  /\ Forall (fun m => id m < next_id db /\ created_at m < now) (rows db)
  /\ engine_error db = None.

(** A character with no special meaning in a [LIKE] pattern. *)
Definition plain (c : ascii) : bool :=
  negb (Ascii.eqb c "%" || Ascii.eqb c "_" || Ascii.eqb c "\").

Fixpoint all_plain (p : string) : bool :=
  match p with
  | EmptyString => true
  | String c p' => plain c && all_plain p'
  end.

(** The separator row that [create_new_conversation] inserts. *)
Definition separator_row (strftime : Z -> string) (db : database)
    (now now' : Z) : Message :=
  {| id := next_id db; role := "system";
     content := separator_prefix +:+ strftime now +:+ " ---";
     created_at := now' |}.

Definition sample_clock : Z -> string := fun _ => "2024-05-01 10:00:00 UTC".

Definition sample_rows (n : nat) : list Message :=
  (fun k => {| id := Z.of_nat (Datatypes.S k); role := "user";
               content := "m"; created_at := Z.of_nat k |}) <$> seq 0 n.

Definition sample_db (n : nat) : database :=
  {| rows := sample_rows n; next_id := Z.of_nat (Datatypes.S n);
     engine_error := None |}.

(** A store with one old message, the same store after a new
    conversation was started, and after one more message. *)
Definition old_db : database :=
  (add_message empty_db 1 (PStr "user") (PStr "old")).2.

Definition fresh_db : database :=
  (create_new_conversation sample_clock old_db 2 2).2.

Definition talk_db : database := append_all fresh_db [(3, "user", "new")].

End StoreNotions.

Module AppNotions.
Import PyStr Groq ChatDB App Notions.

(** A fragment of 91 words, more than three times the chunk size. *)
Definition long_fragment : string := join (replicate 91 "w ").

(** A stream that goes on after the long fragment. *)
Definition long_stream : request -> api_response :=
  fun _ => Streaming [frag long_fragment; frag "tail"] None.

(** A stream that fails after its first chunk. *)
Definition failing_stream : request -> api_response :=
  fun _ => Streaming [frag (join (replicate 30 "w "))] (Some "boom").

(** The metadata of a run of [process_stream] that leaves its loop
    without an exception. *)
Definition normal_metadata (model : string) (tokens : Z) (elapsed : Q)
    : metadata :=
  <["model" := VStr model]>
    (<["tokens" := VInt tokens]> (<["time_elapsed" := VFloat elapsed]> ∅)).

Definition sample_ask (client : request -> api_response)
    (inputs : list user_input) : ask_outcome :=
  ask client inputs 0 1 10 20 empty_db "hola" Groq.DEFAULT_MODEL
    (3 # 10) 8192.

End AppNotions.

(** * Vocabulary of the further statements *)

Module MoreNotions.
Import PyStr Groq ChatDB App Notions StoreNotions.

(** [s.startswith(p)] *)
Fixpoint startswith (p s : string) : bool :=
  match p, s with
  | EmptyString, _ => true
  | String a p', String b s' => Ascii.eqb a b && startswith p' s'
  | String _ _, EmptyString => false
  end.

(** [needle in hay] *)
Fixpoint contains (needle hay : string) : bool :=
  startswith needle hay
  || match hay with
     | EmptyString => false
     | String _ hay' => contains needle hay'
     end.

(** A chunk of the streamer: the shortest run of fragments whose word
    counts reach the chunk size. *)
Definition full_chunk (chunk_size : Z) (g : list string) : Prop :=
  chunk_size <= word_sum g /\ word_sum (removelast g) < chunk_size.

(** The token callback, if there is one, never raises. *)
Definition token_never_raises {S} (on_token : option (@GroqChat.token_callback S))
    : Prop :=
  forall f, on_token = Some f -> forall s t, (f s t).1 = None.

(** The request of [stream_chat_response]. *)
Definition chat_request (question : string)
    (history : option (list message)) : request :=
  {| req_model := DEFAULT_MODEL;
     req_messages := GroqChat.chat_messages question history;
     req_temperature := DEFAULT_TEMPERATURE;
     req_max_completion_tokens := DEFAULT_MAX_TOKENS |}.

(** Every item of the stream has a first choice with a delta. *)
Definition well_shaped (items : list ApiChunk) : Prop :=
  Forall (fun ch => is_Some (chunk_delta ch)) items.

(** The tokens that reach [on_token], if there is one. *)
Definition delivered_tokens {S} (on_token : option (@GroqChat.token_callback S))
    (items : list ApiChunk) : list string :=
  match on_token with
  | Some _ => fragments items
  | None => []
  end.

(** A history with two separators. *)
Definition two_conversations : list message :=
  [mk_message "system" (GroqChat.separator_start +:+ " one");
   mk_message "user" "a";
   mk_message "system" (GroqChat.separator_start +:+ " two");
   mk_message "user" "b"].

(** The rows that [get_all_messages] looks at: the whole table, or the
    current conversation. *)
Definition scope (db : database) (current_conversation_only : bool)
    : list Message :=
  if current_conversation_only then
    match last_separator_id db with
    | Some sid =>
        if negb (sid =? 0) then List.filter (fun m => sid <=? id m) (rows db)
        else rows db
    | None => rows db
    end
  else rows db.

(** Identifiers grow along the table and stay below the sequence. *)
Definition ids_increasing (db : database) : Prop :=
  (forall i j a b,
     rows db !! i = Some a -> rows db !! j = Some b ->
     (i < j)%nat -> id a < id b)
  /\ Forall (fun m => id m < next_id db) (rows db).

(** Timestamps from earliest to latest. *)
Definition oldest_first (l : list Message) : Prop :=
  Sorted (fun a b => created_at a <= created_at b) l.

(** What [ask] asks the store before it calls the model: the question is
    stored, the last 20 messages of the current conversation are read and
    turned into the messages of the request.  [None] when the store
    raises. *)
Definition to_api (msg : message_dict) : message :=
  mk_message (api_role msg) (d_content msg).

Definition ask_request (db : database) (now1 : Z) (question model : string)
    (temperature : Q) (max_tokens : Z) : option request :=
  match add_message db now1 (PStr "user") (PStr question) with
  | (Ok _, db1) =>
      match get_all_messages db1 (Some 20) 0 None None true with
      | Ok (message_records, _) =>
          Some (request_of (to_api <$> message_records) model
                  (clamp01 temperature) max_tokens)
      | Raise _ => None
      end
  | (Raise _, _) => None
  end.

(** A question that [ask] passes on: not blank and not a word for
    leaving. *)
Definition asks (question : string) : Prop :=
  is_empty (strip question) = false
  /\ lower question ∉ ["exit"; "quit"; "salir"].

(** The row that [ask] stores for the question. *)
Definition question_row (db : database) (now1 : Z) (question : string)
    : Message :=
  {| id := next_id db; role := "user"; content := question;
     created_at := now1 |}.




(** One block of [export_markdown]. *)
Definition markdown_block (m : Message) : string :=
  (if String.eqb (role m) "user" then "**Usuario**:" else "**Asistente:**")
  +:+ "  " +:+ Exporter.newline +:+ content m.




End MoreNotions.

(** * Facts about the string primitives *)

Module StringFacts.
Import PyStr.

Lemma str_app_cons (x : ascii) (a b : string) :
  String x a +:+ b = String x (a +:+ b).
Proof. reflexivity. Qed.

Lemma str_app_assoc (a b c : string) : (a +:+ b) +:+ c = a +:+ (b +:+ c).
Proof.
  induction a as [|x a IH]; [reflexivity|].
  rewrite !str_app_cons. f_equal. exact IH.
Qed.

Lemma str_app_nil_r (a : string) : a +:+ "" = a.
Proof.
  induction a as [|x a IH]; [reflexivity|].
  rewrite str_app_cons. f_equal. exact IH.
Qed.

Lemma join_app (xs ys : list string) :
  join (xs ++ ys) = join xs +:+ join ys.
Proof.
  unfold join. induction xs as [|x xs IH]; simpl; [reflexivity|].
  rewrite IH. symmetry. apply str_app_assoc.
Qed.

Lemma join_singleton (x : string) : join [x] = x.
Proof. unfold join. simpl. apply str_app_nil_r. Qed.

Lemma join_cons (x : string) (xs : list string) :
  join (x :: xs) = x +:+ join xs.
Proof. reflexivity. Qed.




Lemma is_empty_true (s : string) : is_empty s = true <-> s = "".
Proof. destruct s; simpl; split; congruence. Qed.

End StringFacts.

(** * Properties of the message window (groq_client.py, lines 76-88) *)

Module WindowFacts.
Import PyStr Groq Notions.

Lemma last_n_length {A} (n : nat) (xs : list A) :
  length (last_n n xs) = Nat.min n (length xs).
Proof. unfold last_n. rewrite length_drop. lia. Qed.

Lemma last_n_suffix {A} (n : nat) (xs : list A) :
  exists older, xs = older ++ last_n n xs.
Proof.
  exists (take (length xs - n) xs). unfold last_n.
  symmetry. apply take_drop.
Qed.

Lemma filter_split_length (xs : list message) :
  (length (List.filter is_system xs)
   + length (List.filter non_system xs) = length xs)%nat.
Proof. apply List.filter_length. Qed.

Lemma existsb_filter_nonempty (xs : list message) :
  List.filter is_system xs <> [] -> existsb is_system xs = true.
Proof.
  induction xs as [|m xs IH]; simpl; [congruence|].
  destruct (is_system m); simpl; auto.
Qed.

Lemma ensure_system_has_system (xs : list message) :
  existsb is_system (ensure_system xs) = true.
Proof.
  unfold ensure_system. destruct (existsb is_system xs) eqn:E; [exact E|].
  reflexivity.
Qed.

Lemma limit_messages_small (xs : list message) :
  (length xs <= 21)%nat -> limit_messages xs = xs.
Proof.
  intros H. unfold limit_messages.
  destruct (Z.ltb_spec 21 (Z.of_nat (length xs))); [lia|reflexivity].
Qed.

Lemma limit_messages_large (xs : list message) :
  (21 < length xs)%nat ->
  limit_messages xs
  = List.filter is_system xs ++ last_n 20 (List.filter non_system xs).
Proof.
  intros H. unfold limit_messages.
  destruct (Z.ltb_spec 21 (Z.of_nat (length xs))); [reflexivity|lia].
Qed.

Section Request.
Context {S : Type}.
Variable client : request -> api_response.
Variables (model : string) (temperature : Q) (max_tokens chunk_size : Z).
Variable on_chunk : option (@callback S).
Variable s : S.

Lemma request_sent (messages : list message) :
  exists tl,
    (stream_response client messages model temperature max_tokens
       chunk_size on_chunk s).1.1
    = ApiCall {| req_model := model;
                 req_messages := window_messages messages;
                 req_temperature := temperature;
                 req_max_completion_tokens := max_tokens |} :: tl.
Proof.
  unfold stream_response. cbv zeta.
  repeat case_match; simpl; eexists; reflexivity.
Qed.

(** C4.  The request that [stream_response] sends carries the windowed
    messages: the fixed system prompt is put in front when no message
    has role system; up to 21 messages go out unchanged; beyond 21,
    exactly the system messages followed by the most recent 20 (or
    fewer, if there are not that many) non-system messages go out.
    With one system message and 25 others, 21 messages go out: the
    system message and the last 20 others. *)
Theorem C4_window_request (messages : list message) :
  exists req tl,
    (stream_response client messages model temperature max_tokens
       chunk_size on_chunk s).1.1 = ApiCall req :: tl
    /\ let base :=
         if existsb is_system messages then messages
         else SYSTEM_PROMPT :: messages in
       let others := List.filter non_system base in
       ((length base <= 21)%nat -> req_messages req = base)
       /\ ((21 < length base)%nat ->
           exists older recent,
             others = older ++ recent
             /\ length recent = Nat.min 20 (length others)
             /\ req_messages req = List.filter is_system base ++ recent)
       /\ (length (List.filter is_system messages) = 1%nat ->
           length (List.filter non_system messages) = 25%nat ->
           length (req_messages req) = 21%nat
           /\ req_messages req
              = List.filter is_system messages
                ++ drop 5 (List.filter non_system messages)).
Proof.
  destruct (request_sent messages) as [tl Htl].
  eexists _, tl. split; [exact Htl|]. cbn [req_messages].
  unfold window_messages, ensure_system.
  repeat split.
  - intros H. now apply limit_messages_small.
  - intros H. rewrite limit_messages_large by exact H.
    destruct (last_n_suffix 20
                (List.filter non_system
                   (if existsb is_system messages then messages
                    else SYSTEM_PROMPT :: messages))) as [older Ho].
    exists older, (last_n 20
                (List.filter non_system
                   (if existsb is_system messages then messages
                    else SYSTEM_PROMPT :: messages))).
    split; [exact Ho|]. split; [apply last_n_length|reflexivity].
  - rewrite existsb_filter_nonempty
      by (intros E; rewrite E in H; discriminate).
    pose proof (filter_split_length messages) as L.
    rewrite limit_messages_large by lia.
    rewrite length_app, last_n_length. lia.
  - rewrite existsb_filter_nonempty
      by (intros E; rewrite E in H; discriminate).
    pose proof (filter_split_length messages) as L.
    rewrite limit_messages_large by lia.
    unfold last_n. fold non_system. rewrite H0. reflexivity.
Qed.
End Request.

Lemma C4_window_request_witness :
  exists req tl,
    (stream_response (S := unit) (fun _ => Streaming [] None)
       sample_history DEFAULT_MODEL DEFAULT_TEMPERATURE DEFAULT_MAX_TOKENS
       30 None tt).1.1 = ApiCall req :: tl
    /\ length (req_messages req) = 21%nat
    /\ req_messages req
       = List.filter is_system sample_history
         ++ drop 5 (List.filter non_system sample_history).
Proof.
  destruct (C4_window_request (S := unit) (fun _ => Streaming [] None)
              DEFAULT_MODEL DEFAULT_TEMPERATURE DEFAULT_MAX_TOKENS 30
              None tt sample_history) as (req & tl & Htr & _ & _ & H).
  exists req, tl. split; [exact Htr|].
  apply H; vm_compute; reflexivity.
Defined.

End WindowFacts.

(** * Properties of the response streamer (groq_client.py, lines 92-156) *)

Module StreamerFacts.
Import PyStr Groq Notions StringFacts.

(** ** Lists *)

(** Where an element of [l1 ++ l2] sits. *)
Lemma app_split {A} (l1 l2 pre post : list A) (x : A) :
  l1 ++ l2 = pre ++ x :: post ->
  (exists k, l1 = pre ++ x :: k /\ post = k ++ l2)
  \/ (exists k, pre = l1 ++ k /\ l2 = k ++ x :: post).
Proof.
  revert pre. induction l1 as [|a l1 IH]; intros pre H; simpl in H.
  - right. exists pre. split; [reflexivity|exact H].
  - destruct pre as [|b pre]; simpl in H.
    + injection H as -> Hl. left. exists l1. split; [reflexivity|now symmetry].
    + injection H as -> Hl. destruct (IH _ Hl) as [(k & -> & ->)|(k & -> & ->)].
      * left. exists k. split; reflexivity.
      * right. exists k. split; reflexivity.
Qed.

Lemma yields_app (l1 l2 : list action) :
  yields (l1 ++ l2) = yields l1 ++ yields l2.
Proof. apply omap_app. Qed.

Lemma one_split {A} (a x : A) (pre post : list A) :
  [a] = pre ++ x :: post -> pre = [] /\ x = a /\ post = [].
Proof.
  destruct pre as [|b [|c pre]]; simpl; intros H;
    inversion H; subst; auto.
Qed.

Lemma two_split {A} (a b x : A) (pre post : list A) :
  [a; b] = pre ++ x :: post ->
  (pre = [] /\ x = a /\ post = [b]) \/ (pre = [a] /\ x = b /\ post = []).
Proof.
  destruct pre as [|c [|d [|e pre]]]; simpl; intros H;
    inversion H; subst; auto.
Qed.

Lemma nil_split {A} (x : A) (pre post : list A) : [] <> pre ++ x :: post.
Proof. destruct pre; discriminate. Qed.

Section Loop.
Context {S : Type}.
Variable chunk_size : Z.
Variable on_chunk : option (@callback S).

Abbreviation loop := (stream_loop chunk_size on_chunk).

(** A callback call in the loop that does not say continue is the last
    action of the loop; it leaves the buffer empty. *)
Lemma loop_stop items fin buffer wc s pre t f md res post :
  lr_trace (loop items fin buffer wc s) = pre ++ Callback t f md res :: post ->
  res <> CbReturn true ->
  post = []
  /\ lr_buffer (loop items fin buffer wc s) = []
  /\ lr_exit (loop items fin buffer wc s)
     = match res with CbReturn _ => Broke | CbRaise e => Raised e end.
Proof.
  revert buffer wc s pre.
  induction items as [|ch rest IH]; intros buffer wc s pre H Hres;
    simpl in H |- *.
  - destruct fin; simpl in H.
    + apply one_split in H as (_ & [=] & _).
    + destruct (nil_split _ _ _ H).
  - destruct (chunk_delta ch) as [d|]; [|eapply IH; eauto].
    destruct (chunk_size <=? _); [|eapply IH; eauto].
    destruct on_chunk as [f0|] eqn:Hcb.
    + destruct (f0 s _ false None) as [res' s'].
      destruct res' as [[|]|e]; simpl in H |- *.
      * destruct pre as [|a [|b pre]]; simpl in H; try discriminate H.
        -- injection H as _ H. congruence.
        -- injection H as _ _ H. eapply IH; eauto.
      * apply two_split in H as [(_ & [=] & _)|(_ & [= -> -> -> ->] & ->)].
        auto.
      * apply two_split in H as [(_ & [=] & _)|(_ & [= -> -> -> ->] & ->)].
        auto.
    + destruct pre as [|a pre]; simpl in H; try discriminate H.
      injection H as _ H. eapply IH; eauto.
Qed.

(** The client's exception ends the loop. *)
Lemma loop_api_error items fin buffer wc s pre e post :
  lr_trace (loop items fin buffer wc s) = pre ++ ApiError e :: post ->
  post = [] /\ lr_exit (loop items fin buffer wc s) = Raised e.
Proof.
  revert buffer wc s pre.
  induction items as [|ch rest IH]; intros buffer wc s pre H;
    simpl in H |- *.
  - destruct fin; simpl in H.
    + apply one_split in H as (_ & [= ->] & ->). auto.
    + destruct (nil_split _ _ _ H).
  - destruct (chunk_delta ch) as [d|]; [|eapply IH; eauto].
    destruct (chunk_size <=? _); [|eapply IH; eauto].
    destruct on_chunk as [f0|] eqn:Hcb.
    + destruct (f0 s _ false None) as [res' s'].
      destruct res' as [[|]|e']; simpl in H |- *.
      * destruct pre as [|a [|b pre]]; simpl in H; try discriminate H.
        injection H as _ _ H. eapply IH; eauto.
      * apply two_split in H as [(_ & [=] & _)|(_ & [=] & _)].
      * apply two_split in H as [(_ & [=] & _)|(_ & [=] & _)].
    + destruct pre as [|a pre]; simpl in H; try discriminate H.
      injection H as _ H. eapply IH; eauto.
Qed.

(** Every event yielded inside the loop is a non-final text event. *)
Lemma loop_yields_non_final items fin buffer wc s :
  Forall (fun ev => finished ev = false /\ error ev = None)
    (yields (lr_trace (loop items fin buffer wc s))).
Proof.
  revert buffer wc s.
  induction items as [|ch rest IH]; intros buffer wc s; simpl.
  - destruct fin; simpl; constructor.
  - destruct (chunk_delta ch) as [d|]; [|now apply IH].
    destruct (chunk_size <=? _); [|now apply IH].
    destruct on_chunk as [f0|] eqn:Hcb.
    + destruct (f0 s _ false None) as [res' s'].
      destruct res' as [[|]|e']; simpl;
        repeat (constructor; simpl; auto).
    + simpl. constructor; simpl; auto.
Qed.

(** Without a client exception and without a raising callback the
    loop does not end by an exception. *)
Lemma loop_no_raise items buffer wc s :
  never_raises on_chunk ->
  lr_exit (loop items None buffer wc s) = Exhausted
  \/ (lr_exit (loop items None buffer wc s) = Broke
      /\ lr_buffer (loop items None buffer wc s) = []).
Proof.
  intros Hnr. revert buffer wc s.
  induction items as [|ch rest IH]; intros buffer wc s; simpl.
  - now left.
  - destruct (chunk_delta ch) as [d|]; [|now apply IH].
    destruct (chunk_size <=? _); [|now apply IH].
    destruct on_chunk as [f0|] eqn:Hcb.
    + destruct (Hnr f0 eq_refl s (join (buffer ++ [delta_text d]))
                  false None) as [r Hr].
      destruct (f0 s _ false None) as [res' s']. simpl in Hr. subst res'.
      destruct r; simpl; [apply IH|right; auto].
    + simpl. apply IH.
Qed.
End Loop.

(** ** Chunking with a callback that never stops the stream *)

Lemma always_continues_never_raises {S} (on_chunk : option (@callback S)) :
  always_continues on_chunk -> never_raises on_chunk.
Proof. intros H f Hf s t b md. exists true. now apply H. Qed.

Lemma words_nonneg (t : string) : 0 <= words t.
Proof. unfold words. lia. Qed.

Lemma word_sum_nonneg (frs : list string) : 0 <= word_sum frs.
Proof.
  induction frs as [|t frs IH]; simpl; [lia|].
  pose proof (words_nonneg t). lia.
Qed.

Lemma ceil_div_zero (c : Z) : 0 < c -> ceil_div 0 c = 0.
Proof. intros H. unfold ceil_div. apply Z.div_small. lia. Qed.

Lemma ceil_div_small (w c : Z) : 0 < w -> w <= c -> ceil_div w c = 1.
Proof.
  intros Hw Hc. unfold ceil_div. symmetry.
  apply (Z.div_unique_pos _ _ 1 (w - 1)); lia.
Qed.

Lemma ceil_div_add (n c : Z) : 0 < c -> ceil_div (c + n) c = 1 + ceil_div n c.
Proof.
  intros H. unfold ceil_div.
  replace (c + n + c - 1) with (1 * c + (n + c - 1)) by lia.
  rewrite Z.div_add_l by lia. reflexivity.
Qed.

Lemma fragments_cons (ch : ApiChunk) (rest : list ApiChunk) :
  fragments (ch :: rest)
  = match chunk_delta ch with
    | Some d => delta_text d :: fragments rest
    | None => fragments rest
    end.
Proof. unfold fragments. simpl. now destruct (chunk_delta ch). Qed.

Section Chunking.
Context {S : Type}.
Variable chunk_size : Z.
Variable on_chunk : option (@callback S).
Hypothesis Hcont : always_continues on_chunk.

Abbreviation loop' := (stream_loop chunk_size on_chunk).

(** One step of the loop on an item that carries text. *)
Lemma loop_step ch rest d buffer wc s :
  chunk_delta ch = Some d ->
  let buffer' := buffer ++ [delta_text d] in
  let wc' := wc + words (delta_text d) in
  if chunk_size <=? wc' then
    exists s',
      yields (lr_trace (loop' (ch :: rest) None buffer wc s))
      = text_event (join buffer') false
        :: yields (lr_trace (loop' rest None [] 0 s'))
      /\ lr_buffer (loop' (ch :: rest) None buffer wc s)
         = lr_buffer (loop' rest None [] 0 s')
  else
    loop' (ch :: rest) None buffer wc s = loop' rest None buffer' wc' s.
Proof.
  intros Hd buffer' wc'. subst buffer' wc'. unfold words. simpl.
  rewrite Hd.
  destruct (chunk_size <=? _); [|reflexivity].
  destruct on_chunk as [f0|] eqn:Hcb.
  - pose proof (Hcont f0 eq_refl s (join (buffer ++ [delta_text d]))
                  false None) as Hr.
    destruct (f0 s _ false None) as [res s']. simpl in Hr. subst res.
    exists s'. simpl. auto.
  - exists s. simpl. auto.
Qed.

Lemma loop_round_trip items buffer wc s :
  join (texts (yields (lr_trace (loop' items None buffer wc s))))
    +:+ join (lr_buffer (loop' items None buffer wc s))
  = join buffer +:+ join (fragments items).
Proof.
  revert buffer wc s.
  induction items as [|ch rest IH]; intros buffer wc s.
  - simpl. now rewrite str_app_nil_r.
  - rewrite fragments_cons.
    destruct (chunk_delta ch) as [d|] eqn:Hd; [|simpl; rewrite Hd; apply IH].
    pose proof (loop_step ch rest d buffer wc s Hd) as Hstep. cbv zeta in Hstep.
    destruct (chunk_size <=? _).
    + destruct Hstep as (s' & -> & ->).
      unfold texts in *. rewrite fmap_cons, !join_cons. simpl chunk.
      rewrite str_app_assoc, IH, join_app, join_singleton.
      change (join []) with "". now rewrite str_app_assoc.
    + rewrite Hstep, IH, join_app, join_singleton.
      now rewrite str_app_assoc.
Qed.

Lemma loop_count_le items buffer wc s :
  0 < chunk_size -> 0 <= wc ->
  Z.of_nat (length (yields (lr_trace (loop' items None buffer wc s))))
    * chunk_size
  <= wc + word_sum (fragments items).
Proof.
  intros Hc. revert buffer wc s.
  induction items as [|ch rest IH]; intros buffer wc s Hwc.
  - simpl. lia.
  - rewrite fragments_cons.
    destruct (chunk_delta ch) as [d|] eqn:Hd;
      [|simpl; rewrite Hd; now apply IH].
    pose proof (loop_step ch rest d buffer wc s Hd) as Hstep. cbv zeta in Hstep.
    pose proof (words_nonneg (delta_text d)) as Hw.
    destruct (Z.leb_spec chunk_size (wc + words (delta_text d))).
    + destruct Hstep as (s' & -> & _). simpl length.
      specialize (IH [] 0 s' ltac:(lia)). simpl word_sum. lia.
    + rewrite Hstep. simpl word_sum.
      specialize (IH (buffer ++ [delta_text d])
                    (wc + words (delta_text d)) s ltac:(lia)). lia.
Qed.

Lemma loop_count_eq items buffer wc s :
  0 < chunk_size -> 0 <= wc < chunk_size ->
  Forall (fun t => words t <= 1) (fragments items) ->
  Z.of_nat (length (yields (lr_trace (loop' items None buffer wc s))))
  = (wc + word_sum (fragments items)) / chunk_size.
Proof.
  intros Hc. revert buffer wc s.
  induction items as [|ch rest IH]; intros buffer wc s Hwc Hone.
  - simpl. rewrite Z.add_0_r. symmetry. now apply Z.div_small.
  - rewrite fragments_cons in Hone |- *.
    destruct (chunk_delta ch) as [d|] eqn:Hd;
      [|simpl; rewrite Hd; now apply IH].
    pose proof (loop_step ch rest d buffer wc s Hd) as Hstep. cbv zeta in Hstep.
    pose proof (words_nonneg (delta_text d)) as Hw.
    apply Forall_cons in Hone as [H1 Hone].
    destruct (Z.leb_spec chunk_size (wc + words (delta_text d))).
    + destruct Hstep as (s' & -> & _). simpl length. simpl word_sum.
      rewrite Nat2Z.inj_succ, (IH [] 0 s' ltac:(lia) Hone).
      replace (wc + (words (delta_text d) + word_sum (fragments rest)))
        with (1 * chunk_size + (0 + word_sum (fragments rest))) by lia.
      rewrite Z.div_add_l by lia. lia.
    + rewrite Hstep. simpl word_sum.
      rewrite (IH (buffer ++ [delta_text d])
                 (wc + words (delta_text d)) s ltac:(lia) Hone).
      f_equal. lia.
Qed.

Lemma loop_count_all items buffer wc s :
  0 < chunk_size -> 0 <= wc < chunk_size ->
  (buffer = [] <-> wc = 0) ->
  Forall (fun t => words t = 1) (fragments items) ->
  Z.of_nat (length (yields (lr_trace (loop' items None buffer wc s))))
  + match lr_buffer (loop' items None buffer wc s) with
    | [] => 0
    | _ :: _ => 1
    end
  = ceil_div (wc + word_sum (fragments items)) chunk_size.
Proof.
  intros Hc. revert buffer wc s.
  induction items as [|ch rest IH]; intros buffer wc s Hwc Hinv Hone.
  - simpl. rewrite Z.add_0_r. destruct buffer as [|b bs].
    + rewrite (proj1 Hinv eq_refl). now rewrite ceil_div_zero.
    + assert (wc <> 0) by (intros E; apply Hinv in E; discriminate).
      rewrite ceil_div_small; lia.
  - rewrite fragments_cons in Hone |- *.
    destruct (chunk_delta ch) as [d|] eqn:Hd;
      [|simpl; rewrite Hd; now apply IH].
    pose proof (loop_step ch rest d buffer wc s Hd) as Hstep. cbv zeta in Hstep.
    apply Forall_cons in Hone as [H1 Hone].
    destruct (Z.leb_spec chunk_size (wc + words (delta_text d))).
    + destruct Hstep as (s' & -> & ->). simpl length. simpl word_sum.
      rewrite Nat2Z.inj_succ.
      pose proof (IH [] 0 s' ltac:(lia) ltac:(tauto) Hone) as IH'.
      replace (wc + (words (delta_text d) + word_sum (fragments rest)))
        with (chunk_size + (0 + word_sum (fragments rest))) by lia.
      rewrite ceil_div_add by lia. lia.
    + rewrite Hstep. simpl word_sum.
      rewrite (IH (buffer ++ [delta_text d])
                 (wc + words (delta_text d)) s ltac:(lia)); [f_equal; lia| |exact Hone].
      split; [intros E; destruct buffer; discriminate E|lia].
Qed.
(** A stream that fails is read up to its failure. *)
Lemma loop_reaches_failure items e buffer wc s :
  exists pre,
    lr_trace (loop' items (Some e) buffer wc s) = pre ++ [ApiError e].
Proof.
  revert buffer wc s.
  induction items as [|ch rest IH]; intros buffer wc s; simpl.
  - now exists [].
  - destruct (chunk_delta ch) as [d|]; [|apply IH].
    destruct (chunk_size <=? _); [|apply IH].
    destruct on_chunk as [f0|] eqn:Hcb.
    + pose proof (Hcont f0 eq_refl s (join (buffer ++ [delta_text d]))
                    false None) as Hr.
      destruct (f0 s _ false None) as [res s']. simpl in Hr. subst res.
      destruct (IH [] 0 s') as [pre Hpre]. simpl. rewrite Hpre.
      eexists (_ :: _ :: pre). reflexivity.
    + destruct (IH [] 0 s) as [pre Hpre]. simpl. rewrite Hpre.
      eexists (_ :: pre). reflexivity.
Qed.
End Chunking.

(** ** The whole generator *)

Section Response.
Context {S : Type}.
Variable client : request -> api_response.
Variables (model : string) (temperature : Q) (max_tokens chunk_size : Z).
Variable on_chunk : option (@callback S).

Abbreviation run messages s :=
  (stream_response client messages model temperature max_tokens
     chunk_size on_chunk s).
Abbreviation opened messages s :=
  (open_stream client (request_of messages model temperature max_tokens)
     chunk_size on_chunk s).

Lemma run_unfold messages s :
  run messages s
  = let r := opened messages s in
    let '(tl, c, s') := close_stream on_chunk r in
    (ApiCall (request_of messages model temperature max_tokens)
       :: lr_trace r ++ tl, c, s').
Proof. reflexivity. Qed.

Lemma opened_stop messages s pre t f md res post :
  lr_trace (opened messages s) = pre ++ Callback t f md res :: post ->
  res <> CbReturn true ->
  post = []
  /\ lr_buffer (opened messages s) = []
  /\ lr_exit (opened messages s)
     = match res with CbReturn _ => Broke | CbRaise e => Raised e end.
Proof.
  unfold open_stream. destruct (client _) as [e0|items fin].
  - simpl. intros H. apply one_split in H as (_ & [=] & _).
  - apply loop_stop.
Qed.

Lemma opened_api_error messages s pre e post :
  lr_trace (opened messages s) = pre ++ ApiError e :: post ->
  post = [] /\ lr_exit (opened messages s) = Raised e.
Proof.
  unfold open_stream. destruct (client _) as [e0|items fin].
  - simpl. intros H. apply one_split in H as (_ & [= ->] & ->). auto.
  - apply loop_api_error.
Qed.

Lemma opened_yields_non_final messages s :
  Forall (fun ev => finished ev = false /\ error ev = None)
    (yields (lr_trace (opened messages s))).
Proof.
  unfold open_stream. destruct (client _) as [e0|items fin].
  - simpl. constructor.
  - apply loop_yields_non_final.
Qed.

(** The handler yields the error event and nothing else. *)
Lemma on_exception_trace e s :
  let '(tl, c, _) := on_exception on_chunk e s in
  yields tl = [error_event (error_prefix +:+ e)]
  /\ (forall e', ~ ApiError e' ∈ tl)
  /\ (forall pre t f md post,
        tl = pre ++ Callback t f md (CbReturn false) :: post -> post = [])
  /\ (never_raises on_chunk -> c = Returned)
  /\ (forall e', c = Propagated e' ->
        exists md, last tl = Some (Callback "" true md (CbRaise e'))).
Proof.
  unfold on_exception. destruct on_chunk as [f0|] eqn:Hcb.
  - pose proof (fun H : never_raises (Some f0) =>
                  H f0 eq_refl s "" true (Some (error_prefix +:+ e))) as Hnr.
    destruct (f0 s "" true _) as [res s']. simpl in Hnr.
    split; [reflexivity|]. split.
    { intros e' Hin. repeat (apply elem_of_cons in Hin as [Hin|Hin];
        [discriminate Hin|]). inversion Hin. }
    split.
    { intros pre t f md post H.
      apply two_split in H as [(_ & [=] & _)|(_ & _ & ->)]. reflexivity. }
    split.
    { intros H. destruct (Hnr H) as [r ->]. reflexivity. }
    intros e' He'. destruct res as [b|e'']; [discriminate He'|].
    injection He' as ->. eexists. reflexivity.
  - split; [reflexivity|]. split.
    { intros e' Hin. apply elem_of_cons in Hin as [Hin|Hin];
        [discriminate Hin|inversion Hin]. }
    split.
    { intros pre t f md post H.
      apply one_split in H as (_ & [=] & _). }
    split; [reflexivity|]. intros e' [=].
Qed.

(** What is emitted once the loop is left without an exception. *)
Lemma flush_buffer_trace buffer s :
  let '(tl, c, _) := flush_buffer on_chunk buffer s in
  (forall e', ~ ApiError e' ∈ tl)
  /\ (forall pre t f md post,
        tl = pre ++ Callback t f md (CbReturn false) :: post -> post = [])
  /\ (never_raises on_chunk ->
      c = Returned
      /\ yields tl = match buffer with
                     | [] => []
                     | _ :: _ => [text_event (join buffer) true]
                     end).
Proof.
  unfold flush_buffer. destruct buffer as [|b0 bs].
  { split; [intros e' Hin; inversion Hin|].
    split; [|auto].
    intros pre t f md post H. destruct (nil_split _ _ _ H). }
  destruct on_chunk as [f0|] eqn:Hcb.
  - pose proof (fun H : never_raises (Some f0) =>
                  H f0 eq_refl s (join (b0 :: bs)) true None) as Hnr.
    destruct (f0 s _ true None) as [res s']. simpl in Hnr.
    destruct res as [b|e].
    + split.
      { intros e' Hin. repeat (apply elem_of_cons in Hin as [Hin|Hin];
          [discriminate Hin|]). inversion Hin. }
      split; [|auto].
      intros pre t f md post H.
      apply two_split in H as [(_ & [=] & _)|(_ & _ & ->)]. reflexivity.
    + pose proof (on_exception_trace e s') as Hex.
      rewrite Hcb in Hex.
      destruct (on_exception (Some f0) e s') as [[tl c] s''].
      destruct Hex as (Hy & Hapi & Hstop & _).
      split.
      { intros e' Hin. repeat (apply elem_of_cons in Hin as [Hin|Hin];
          [discriminate Hin|]). now apply Hapi in Hin. }
      split.
      { intros pre t f md post H.
        change ([Yield (text_event (join (b0 :: bs)) true);
                 Callback (join (b0 :: bs)) true None (CbRaise e)] ++ tl
                = pre ++ Callback t f md (CbReturn false) :: post) in H.
        apply app_split in H as [(k & H & _)|(k & _ & H)].
        - apply two_split in H as [(_ & [=] & _)|(_ & [=] & _)].
        - eapply Hstop; eauto. }
      intros H. destruct (Hnr H) as [r [=]].
  - split.
    { intros e' Hin. apply elem_of_cons in Hin as [Hin|Hin];
        [discriminate Hin|inversion Hin]. }
    split; [|auto].
    intros pre t f md post H. apply one_split in H as (_ & [=] & _).
Qed.

(** C7.  Once a call of the callback has returned false, the generator
    does nothing further: every chunk event of the run was yielded
    before that call.  In particular, when the callback returns false
    at its call for the second chunk, no third chunk is emitted. *)
Theorem C7_stop_after_false messages s pre t f md post :
  (run messages s).1.1 = pre ++ Callback t f md (CbReturn false) :: post ->
  post = [] /\ yields (run messages s).1.1 = yields pre.
Proof.
  intros H.
  assert (post = []) as ->.
  { rewrite run_unfold in H. cbv zeta in H.
    pose proof (opened_stop messages s) as Hstop.
    destruct (close_stream on_chunk (opened messages s))
      as [[tl c] s'] eqn:Hclose.
    simpl in H. destruct pre as [|a pre]; simpl in H; [discriminate H|].
    injection H as _ H.
    apply app_split in H as [(k & Hl & ->)|(k & _ & Ht)].
    - destruct (Hstop _ _ _ _ _ _ Hl) as (-> & Hb & Hx); [discriminate|].
      unfold close_stream in Hclose. rewrite Hx, Hb in Hclose.
      simpl in Hclose. injection Hclose as <- _ _. reflexivity.
    - unfold close_stream in Hclose.
      destruct (lr_exit (opened messages s)) as [| |e].
      + pose proof (flush_buffer_trace (lr_buffer (opened messages s))
                      (lr_state (opened messages s))) as Hf.
        rewrite Hclose in Hf. destruct Hf as (_ & Hf & _). eapply Hf; eauto.
      + pose proof (flush_buffer_trace (lr_buffer (opened messages s))
                      (lr_state (opened messages s))) as Hf.
        rewrite Hclose in Hf. destruct Hf as (_ & Hf & _). eapply Hf; eauto.
      + pose proof (on_exception_trace e (lr_state (opened messages s)))
          as Hf.
        rewrite Hclose in Hf. destruct Hf as (_ & _ & Hf & _).
        eapply Hf; eauto. }
  split; [reflexivity|]. rewrite H, yields_app. simpl.
  now rewrite app_nil_r.
Qed.

(** C5.  When the client raises (at the call or while the stream is
    read), the generator yields exactly one event after that point: the
    terminal event with an empty text, [finished = true] and
    [error = Some] of the prefixed message.  Every event before it is a
    non-final text event without error.  The generator then returns:
    with a callback that does not raise it ends normally, and the only
    exception that can leave it is one raised by the callback's own
    last call, never the client's.  A failure of the call itself is
    always met, and so is a failure of the stream unless the callback
    ends the run before. *)
Theorem C5_api_error_is_terminal_event messages s :
  (forall pre e post,
     (run messages s).1.1 = pre ++ ApiError e :: post ->
     yields post = [error_event (error_prefix +:+ e)]
     /\ finished (error_event (error_prefix +:+ e)) = true
     /\ error (error_event (error_prefix +:+ e)) = Some (error_prefix +:+ e)
     /\ Forall (fun ev => finished ev = false /\ error ev = None) (yields pre)
     /\ (never_raises on_chunk -> (run messages s).1.2 = Returned)
     /\ (forall e', (run messages s).1.2 = Propagated e' ->
           exists md, last post = Some (Callback "" true md (CbRaise e'))))
  /\ (forall e,
        client (request_of messages model temperature max_tokens)
        = CreateRaises e ->
        exists post,
          (run messages s).1.1
          = [ApiCall (request_of messages model temperature max_tokens)]
            ++ ApiError e :: post)
  /\ (forall items e,
        client (request_of messages model temperature max_tokens)
        = Streaming items (Some e) ->
        always_continues on_chunk ->
        exists pre post, (run messages s).1.1 = pre ++ ApiError e :: post).
Proof.
  split; [|split].
  - intros pre e post H. rewrite run_unfold in H |- *. cbv zeta in H |- *.
    pose proof (opened_api_error messages s) as Herr.
    pose proof (opened_yields_non_final messages s) as Hnf.
    destruct (close_stream on_chunk (opened messages s))
      as [[tl c] s'] eqn:Hclose.
    simpl in H |- *. destruct pre as [|a pre]; simpl in H; [discriminate H|].
    injection H as <- H.
    apply app_split in H as [(k & Hl & ->)|(k & _ & Ht)].
    + destruct (Herr _ _ _ Hl) as (-> & Hx).
      unfold close_stream in Hclose. rewrite Hx in Hclose.
      pose proof (on_exception_trace e (lr_state (opened messages s))) as Hf.
      rewrite Hclose in Hf. destruct Hf as (Hy & _ & _ & Hret & Hprop).
      simpl. split; [exact Hy|]. split; [reflexivity|].
      split; [reflexivity|]. split; [|split; [exact Hret|exact Hprop]].
      rewrite Hl, yields_app in Hnf. now apply Forall_app in Hnf as [Hnf _].
    + exfalso. unfold close_stream in Hclose.
      assert (ApiError e ∈ tl) as Hin.
      { rewrite Ht. apply elem_of_app. right. apply elem_of_cons. now left. }
      destruct (lr_exit (opened messages s)) as [| |e0].
      * pose proof (flush_buffer_trace (lr_buffer (opened messages s))
                      (lr_state (opened messages s))) as Hf.
        rewrite Hclose in Hf. destruct Hf as (Hf & _). eapply Hf; eauto.
      * pose proof (flush_buffer_trace (lr_buffer (opened messages s))
                      (lr_state (opened messages s))) as Hf.
        rewrite Hclose in Hf. destruct Hf as (Hf & _). eapply Hf; eauto.
      * pose proof (on_exception_trace e0 (lr_state (opened messages s)))
          as Hf.
        rewrite Hclose in Hf. destruct Hf as (_ & Hf & _). eapply Hf; eauto.
  - intros e Hclient. rewrite run_unfold. cbv zeta.
    destruct (close_stream on_chunk (opened messages s)) as [[tl c] s'].
    unfold open_stream. rewrite Hclient. simpl. eauto.
  - intros items e Hclient Hcont. rewrite run_unfold. cbv zeta.
    destruct (close_stream on_chunk (opened messages s)) as [[tl c] s'].
    unfold open_stream. rewrite Hclient.
    destruct (loop_reaches_failure chunk_size on_chunk Hcont items e [] 0 s)
      as [pre Hpre].
    rewrite Hpre. simpl.
    exists (ApiCall (request_of messages model temperature max_tokens) :: pre),
      tl.
    simpl. now rewrite <- app_assoc.
Qed.

(** The events of a run whose stream ends without an exception. *)
Lemma run_events messages s items :
  client (request_of messages model temperature max_tokens)
  = Streaming items None ->
  never_raises on_chunk ->
  let r := stream_loop chunk_size on_chunk items None [] 0 s in
  (run messages s).1.2 = Returned
  /\ yields (run messages s).1.1
     = yields (lr_trace r)
       ++ match lr_buffer r with
          | [] => []
          | _ :: _ => [text_event (join (lr_buffer r)) true]
          end.
Proof.
  intros Hclient Hnr r.
  assert (opened messages s = r) as Hr.
  { unfold open_stream. now rewrite Hclient. }
  assert (close_stream on_chunk r
          = flush_buffer on_chunk (lr_buffer r) (lr_state r)) as Hclose.
  { unfold close_stream, r.
    destruct (loop_no_raise chunk_size on_chunk items [] 0 s Hnr)
      as [->|[-> _]]; reflexivity. }
  pose proof (flush_buffer_trace (lr_buffer r) (lr_state r)) as Hf.
  rewrite run_unfold. cbv zeta. rewrite Hr, Hclose.
  destruct (flush_buffer on_chunk (lr_buffer r) (lr_state r))
    as [[tl c] s'].
  destruct Hf as (_ & _ & Hf). destruct (Hf Hnr) as (-> & Hy).
  simpl. now rewrite yields_app, Hy.
Qed.

Lemma non_final_loop_events (evs : list chunk_event) (buffer : list string) :
  Forall (fun ev => finished ev = false /\ error ev = None) evs ->
  non_final (evs ++ match buffer with
                    | [] => []
                    | _ :: _ => [text_event (join buffer) true]
                    end) = evs.
Proof.
  intros H. unfold non_final. rewrite List.filter_app.
  replace (List.filter _ (match buffer with [] => [] | _ => _ end))
    with (@nil chunk_event) by now destruct buffer.
  rewrite app_nil_r. induction H as [|ev evs [Hfin _] _ IH]; simpl.
  - reflexivity.
  - rewrite Hfin. simpl. now rewrite IH.
Qed.

(** C2, as the code has it.  With a positive chunk size and a callback
    that never stops the stream, the texts of the emitted events, joined
    in order, are the joined fragments of the stream (round trip).  The
    number of non-final events is at most [floor(T / C)], where [T] is
    the sum of the word counts of the fragments, each counted alone;
    it is exactly [floor(T / C)] when no fragment holds more than one
    word; and when every fragment holds exactly one word the number of
    all events, the final one included, is [ceil(T / C)]. *)
Theorem C2_round_trip_and_chunk_count messages s items :
  client (request_of messages model temperature max_tokens)
  = Streaming items None ->
  0 < chunk_size ->
  always_continues on_chunk ->
  let evs := yields (run messages s).1.1 in
  let total := word_sum (fragments items) in
  join (texts evs) = join (fragments items)
  /\ Z.of_nat (length (non_final evs)) <= total / chunk_size
  /\ (Forall (fun t => words t <= 1) (fragments items) ->
      Z.of_nat (length (non_final evs)) = total / chunk_size)
  /\ (Forall (fun t => words t = 1) (fragments items) ->
      Z.of_nat (length evs) = ceil_div total chunk_size).
Proof.
  intros Hclient Hc Hcont evs total.
  destruct (run_events messages s items Hclient
              (always_continues_never_raises _ Hcont)) as (_ & Hy).
  cbv zeta in Hy. subst evs. rewrite Hy. clear Hy.
  pose proof (loop_yields_non_final chunk_size on_chunk items None [] 0 s)
    as Hnf.
  pose proof (loop_round_trip chunk_size on_chunk Hcont items [] 0 s) as Hrt.
  set (r := stream_loop chunk_size on_chunk items None [] 0 s) in *.
  rewrite non_final_loop_events by exact Hnf.
  split; [|split; [|split]].
  - change (join [] +:+ join (fragments items))
      with (join (fragments items)) in Hrt.
    unfold texts in *. rewrite fmap_app, join_app, <- Hrt.
    f_equal. destruct (lr_buffer r); [reflexivity|].
    simpl. apply join_singleton.
  - apply Z.div_le_lower_bound; [lia|].
    pose proof (loop_count_le chunk_size on_chunk Hcont items [] 0 s Hc
                  ltac:(lia)) as Hle.
    fold r in Hle. subst total. lia.
  - intros Hone.
    pose proof (loop_count_eq chunk_size on_chunk Hcont items [] 0 s Hc
                  ltac:(lia) Hone) as Heq.
    fold r in Heq. exact Heq.
  - intros Hone.
    pose proof (loop_count_all chunk_size on_chunk Hcont items [] 0 s Hc
                  ltac:(lia) ltac:(tauto) Hone) as Heq.
    fold r in Heq. subst total.
    change (0 + word_sum (fragments items))
      with (word_sum (fragments items)) in Heq.
    rewrite <- Heq.
    rewrite length_app, Nat2Z.inj_add. f_equal.
    now destruct (lr_buffer r).
Qed.

(** C1, as the code has it.  When the client's stream ends without an
    exception and the callback does not raise, the generator ends
    normally and its events are the non-final events of the loop,
    followed by one final event ([finished = true], no error) carrying
    the joined buffer if at least one fragment is left in the buffer
    (its text may be empty), and by nothing if the buffer holds no
    fragment.  No event follows a final event. *)
Theorem C1_final_event_when_buffered messages s items :
  client (request_of messages model temperature max_tokens)
  = Streaming items None ->
  never_raises on_chunk ->
  let r := stream_loop chunk_size on_chunk items None [] 0 s in
  (run messages s).1.2 = Returned
  /\ yields (run messages s).1.1
     = yields (lr_trace r)
       ++ match lr_buffer r with
          | [] => []
          | _ :: _ => [text_event (join (lr_buffer r)) true]
          end
  /\ Forall (fun ev => finished ev = false) (yields (lr_trace r))
  /\ Forall (fun ev => error ev = None) (yields (run messages s).1.1)
  /\ (forall pre ev post,
        yields (run messages s).1.1 = pre ++ ev :: post ->
        finished ev = true -> post = []).
Proof.
  intros Hclient Hnr r.
  destruct (run_events messages s items Hclient Hnr) as (Hret & Hy).
  fold r in Hy. rewrite Hy.
  pose proof (loop_yields_non_final chunk_size on_chunk items None [] 0 s)
    as Hnf.
  fold r in Hnf.
  assert (Forall (fun ev => finished ev = false) (yields (lr_trace r)))
    as Hnf1.
  { eapply Forall_impl; [exact Hnf|]. now intros ev [? _]. }
  split; [exact Hret|]. split; [reflexivity|]. split; [exact Hnf1|].
  split.
  - apply Forall_app. split.
    + eapply Forall_impl; [exact Hnf|]. now intros ev [_ ?].
    + destruct (lr_buffer r); repeat constructor.
  - intros pre ev post H Hfin.
    apply app_split in H as [(k & Hl & _)|(k & _ & Ht)].
    + rewrite Hl in Hnf1. apply Forall_app in Hnf1 as [_ Hnf1].
      inversion Hnf1; congruence.
    + destruct (lr_buffer r).
      * destruct (nil_split _ _ _ Ht).
      * now apply one_split in Ht as (_ & _ & ->).
Qed.
End Response.

Lemma never_raises_None {S} : never_raises (@None (@callback S)).
Proof. intros f [=]. Qed.

(** A run that ends without an exception and yet has no final event:
    two one-word fragments with a chunk size of two. *)
Lemma C1_counterexample :
  let r := sample_run [frag "a "; frag "b "] None 2 None tt in
  r.1.2 = Returned
  /\ (forall e, ~ ApiError e ∈ r.1.1)
  /\ yields r.1.1 = [text_event "a b " false]
  /\ ~ exists ev, ev ∈ yields r.1.1 /\ finished ev = true.
Proof.
  split; [reflexivity|]. split.
  { intros e Hin. vm_compute in Hin.
    repeat (apply elem_of_cons in Hin as [Hin|Hin]; [discriminate Hin|]).
    inversion Hin. }
  split; [reflexivity|].
  intros (ev & Hin & Hfin).
  change (yields (sample_run [frag "a "; frag "b "] None 2 None tt).1.1)
    with [text_event "a b " false] in Hin.
  apply elem_of_cons in Hin as [->|Hin]; [discriminate Hfin|inversion Hin].
Qed.

Lemma C1_final_event_when_buffered_witness :
  yields (sample_run [frag "a "; frag "b "; frag ""] None 2 None tt).1.1
  = [text_event "a b " false; text_event "" true].
Proof.
  destruct (C1_final_event_when_buffered
              (fun _ => Streaming [frag "a "; frag "b "; frag ""] None)
              DEFAULT_MODEL DEFAULT_TEMPERATURE DEFAULT_MAX_TOKENS 2
              None [] tt [frag "a "; frag "b "; frag ""]
              eq_refl never_raises_None) as (_ & Hy & _).
  unfold sample_run. rewrite Hy. reflexivity.
Defined.

Lemma C7_stop_after_false_witness :
  yields (sample_run [frag "a"; frag "b"; frag "c"] None 1
            (Some (stop_at 1)) 0%nat).1.1
  = [text_event "a" false; text_event "b" false].
Proof.
  refine (eq_trans
            (proj2 (C7_stop_after_false
                      (fun _ => Streaming [frag "a"; frag "b"; frag "c"] None)
                      DEFAULT_MODEL DEFAULT_TEMPERATURE DEFAULT_MAX_TOKENS 1
                      (Some (stop_at 1)) [] 0%nat
                      [ApiCall sample_request;
                       Yield (text_event "a" false);
                       Callback "a" false None (CbReturn true);
                       Yield (text_event "b" false)]
                      "b" false None [] _)) _).
  - vm_compute. reflexivity.
  - reflexivity.
Defined.

Lemma C5_api_error_is_terminal_event_witness :
  let tr := (sample_run [frag "a"] (Some "boom") 1 None tt).1.1 in
  let post := [Yield (error_event (error_prefix +:+ "boom"))] in
  tr = [ApiCall sample_request; Yield (text_event "a" false)]
       ++ ApiError "boom" :: post
  /\ yields post = [error_event (error_prefix +:+ "boom")].
Proof.
  split; [vm_compute; reflexivity|].
  apply (proj1 (C5_api_error_is_terminal_event
                  (fun _ => Streaming [frag "a"] (Some "boom"))
                  DEFAULT_MODEL DEFAULT_TEMPERATURE DEFAULT_MAX_TOKENS 1
                  None [] tt)
           [ApiCall sample_request; Yield (text_event "a" false)]
           "boom" [Yield (error_event (error_prefix +:+ "boom"))]).
  vm_compute. reflexivity.
Defined.

Lemma always_continues_None {S} : always_continues (@None (@callback S)).
Proof. intros f [=]. Qed.

(** The scenario of the specification: 31 fragments of one word each
    with a chunk size of 30.  The joined input has 31 words, so
    [ceil(W / C)] is 2, but there is one non-final event. *)
Lemma C2_counterexample :
  let frs := replicate 31 "a " in
  let evs := yields (sample_run (frag <$> frs) None 30 None tt).1.1 in
  words (join frs) = 31
  /\ ceil_div (words (join frs)) 30 = 2
  /\ length (non_final evs) = 1%nat
  /\ Z.of_nat (length (non_final evs)) <> ceil_div (words (join frs)) 30.
Proof. vm_compute. repeat split; congruence. Qed.

Lemma C2_round_trip_and_chunk_count_witness :
  let frs := replicate 31 "a " in
  let evs := yields (sample_run (frag <$> frs) None 30 None tt).1.1 in
  join (texts evs) = join frs
  /\ Z.of_nat (length (non_final evs)) = 31 / 30
  /\ Z.of_nat (length evs) = ceil_div 31 30.
Proof.
  destruct (C2_round_trip_and_chunk_count
              (fun _ => Streaming (frag <$> replicate 31 "a ") None)
              DEFAULT_MODEL DEFAULT_TEMPERATURE DEFAULT_MAX_TOKENS 30
              None [] tt (frag <$> replicate 31 "a ")
              eq_refl ltac:(lia) always_continues_None)
    as (Hrt & _ & Hnf & Hall).
  split; [exact Hrt|]. split.
  - apply Hnf. vm_compute. repeat constructor; discriminate.
  - apply Hall. vm_compute. repeat constructor.
Defined.

End StreamerFacts.

(** * Properties of the message store (chat_db.py) *)

Module StoreFacts.
Import PyStr ChatDB StoreNotions StringFacts.

(** ** add_message *)



(** ** Ordering by timestamp *)

Lemma insert_desc_perm (m : Message) (l : list Message) :
  insert_desc m l ≡ₚ m :: l.
Proof.
  induction l as [|x l IH]; simpl; [reflexivity|].
  destruct (created_at x <=? created_at m); [reflexivity|].
  rewrite IH. apply Permutation_swap.
Qed.

Lemma order_desc_perm (l : list Message) :
  order_by_created_at_desc l ≡ₚ l.
Proof.
  induction l as [|x l IH]; simpl; [reflexivity|].
  now rewrite insert_desc_perm, IH.
Qed.

Lemma order_desc_length (l : list Message) :
  length (order_by_created_at_desc l) = length l.
Proof. now rewrite order_desc_perm. Qed.

Lemma insert_desc_sorted (m : Message) (l : list Message) :
  newest_first l -> newest_first (insert_desc m l).
Proof.
  unfold newest_first. induction l as [|x l IH]; intros Hs; simpl.
  - repeat constructor.
  - destruct (Z.leb_spec (created_at x) (created_at m)).
    + constructor; [exact Hs|]. now constructor.
    + apply Sorted_inv in Hs as [Hs Hd]. constructor; [now apply IH|].
      destruct l as [|y l]; simpl.
      * constructor. lia.
      * destruct (Z.leb_spec (created_at y) (created_at m)).
        -- constructor. lia.
        -- constructor. now apply HdRel_inv in Hd.
Qed.

Lemma order_desc_sorted (l : list Message) :
  newest_first (order_by_created_at_desc l).
Proof.
  induction l as [|x l IH]; simpl; [constructor|].
  now apply insert_desc_sorted.
Qed.

Lemma newest_first_drop (k : nat) (l : list Message) :
  newest_first l -> newest_first (drop k l).
Proof.
  unfold newest_first. revert l.
  induction k as [|k IH]; intros [|x l] Hs; simpl; auto.
  apply IH. now apply Sorted_inv in Hs as [Hs _].
Qed.

Lemma newest_first_take (k : nat) (l : list Message) :
  newest_first l -> newest_first (take k l).
Proof.
  unfold newest_first. revert l.
  induction k as [|k IH]; intros [|x l] Hs; simpl; try constructor.
  - apply IH. now apply Sorted_inv in Hs as [Hs _].
  - apply Sorted_inv in Hs as [_ Hd].
    destruct l as [|y l], k as [|k]; simpl; constructor.
    now apply HdRel_inv in Hd.
Qed.

(** ** get_all_messages *)



Lemma get_all_messages_ok db limit offset search role cco :
  0 <= offset -> engine_error db = None ->
  get_all_messages db limit offset search role cco
  = Ok (to_dict <$>
          take (Z.to_nat (effective_limit limit))
            (drop (Z.to_nat offset)
               (order_by_created_at_desc (filtered db search role cco))),
        Z.of_nat (length (filtered db search role cco))).
Proof.
  intros Ho He. unfold get_all_messages. rewrite He.
  destruct (Z.ltb_spec offset 0); [lia|reflexivity].
Qed.

Lemma get_all_messages_page db limit offset search role cco page total :
  get_all_messages db limit offset search role cco = Ok (page, total) ->
  page = to_dict <$>
           take (Z.to_nat (effective_limit limit))
             (drop (Z.to_nat offset)
                (order_by_created_at_desc (filtered db search role cco)))
  /\ total = Z.of_nat (length (filtered db search role cco))
  /\ 0 <= offset.
Proof.
  unfold get_all_messages. destruct (engine_error db); [discriminate|].
  destruct (Z.ltb_spec offset 0); [discriminate|].
  intros [= <- <-]. auto.
Qed.

Lemma effective_limit_spec (limit : option Z) :
  effective_limit limit
  = match limit with
    | Some n => if 0 <? n then n else 100
    | None => 100
    end.
Proof.
  unfold effective_limit. destruct limit as [n|]; [|reflexivity].
  destruct (Z.ltb_spec 0 n), (Z.eqb_spec n 0); simpl; try reflexivity; lia.
Qed.

(** C10.  A call of [get_all_messages] that succeeds returns a page of
    [min(L, max(0, total - offset))] messages, where [L] is 100 when
    [limit] is [None], zero or negative, and [limit] itself when it is
    positive; so at most 100 messages in the first case and at most
    [limit] in the second.  The call succeeds whenever the storage layer
    works and the offset is not negative. *)
Theorem C10_page_limit db limit offset search role cco :
  0 <= offset -> engine_error db = None ->
  exists page total,
    get_all_messages db limit offset search role cco = Ok (page, total)
    /\ (limit = None \/ (exists n, limit = Some n /\ n <= 0) ->
        Z.of_nat (length page) = Z.min 100 (Z.max 0 (total - offset))
        /\ Z.of_nat (length page) <= 100)
    /\ (forall n, limit = Some n -> 0 < n ->
        Z.of_nat (length page) = Z.min n (Z.max 0 (total - offset))
        /\ Z.of_nat (length page) <= n).
Proof.
  intros Ho He. eexists _, _.
  split; [now apply get_all_messages_ok|].
  rewrite length_fmap, length_take, length_drop, order_desc_length.
  rewrite effective_limit_spec.
  split.
  - intros [->|(n & -> & Hn)].
    + lia.
    + destruct (Z.ltb_spec 0 n); lia.
  - intros n -> Hn. destruct (Z.ltb_spec 0 n); lia.
Qed.

Lemma C10_page_limit_witness :
  exists page total,
    get_all_messages (sample_db 101) None 0 None None false
    = Ok (page, total)
    /\ Z.of_nat (length page) = Z.min 100 (Z.max 0 (total - 0))
    /\ Z.of_nat (length page) <= 100.
Proof.
  destruct (C10_page_limit (sample_db 101) None 0 None None false
              ltac:(lia) eq_refl) as (page & total & Heq & Hnone & _).
  exists page, total. split; [exact Heq|]. apply Hnone. now left.
Defined.

(** ** Roles are stored in lower case *)

Lemma add_message_rows db now role content :
  (add_message db now role content).2 = db
  \/ (add_message db now role content).2
     = {| rows := rows db ++ [{| id := next_id db;
                                 ChatDB.role := lower (str_of role);
                                 ChatDB.content := str_of content;
                                 created_at := now |}];
          next_id := next_id db + 1; engine_error := None |}
     /\ add_message db now role content
        = (Ok (to_dict {| id := next_id db;
                          ChatDB.role := lower (str_of role);
                          ChatDB.content := str_of content;
                          created_at := now |}),
           (add_message db now role content).2)
     /\ engine_error db = None
     /\ role = PStr (str_of role) /\ content = PStr (str_of content)
     /\ str_of role <> "" /\ str_of content <> "".
Proof.
  unfold add_message.
  destruct (negb (truthy role) || negb (isinstance_str role)) eqn:E1;
    [now left|].
  destruct (negb (truthy content) || negb (isinstance_str content)) eqn:E2;
    [now left|].
  destruct (engine_error db) eqn:E; [now left|]. right.
  destruct role as [r| |]; simpl in E1; rewrite ?orb_true_r in E1;
    try discriminate E1.
  destruct content as [c| |]; simpl in E2; rewrite ?orb_true_r in E2;
    try discriminate E2.
  destruct r; [discriminate E1|]. destruct c; [discriminate E2|].
  simpl. repeat split; congruence.
Qed.



(** ** The current conversation *)

Lemma like_percent (s : string) : like "%" s = true.
Proof.
  induction s as [|c s IH].
  - reflexivity.
  - simpl in *. exact IH.
Qed.

Lemma like_plain_prefix (p t : string) :
  all_plain p = true -> like (p +:+ "%") (p +:+ t) = true.
Proof.
  induction p as [|c p IH]; intros Hp.
  - apply like_percent.
  - simpl in Hp. apply andb_true_iff in Hp as [Hc Hp].
    rewrite !str_app_cons. unfold plain in Hc.
    apply negb_true_iff, orb_false_iff in Hc as [Hc H3].
    apply orb_false_iff in Hc as [H1 H2].
    simpl. rewrite H1, H2, H3, Ascii.eqb_refl. simpl. now apply IH.
Qed.

Lemma separator_row_is_separator strftime db now now' :
  is_separator (separator_row strftime db now now') = true.
Proof.
  unfold is_separator, separator_row. cbn [role content].
  rewrite String.eqb_refl, andb_true_l.
  change separator_pattern
    with (("--- NUEVA CONVERSACI" +:+ chr 211 +:+ "N") +:+ "%").
  change (separator_prefix +:+ strftime now +:+ " ---")
    with (("--- NUEVA CONVERSACI" +:+ chr 211 +:+ "N")
          +:+ (" INICIADA: " +:+ strftime now +:+ " ---")).
  apply like_plain_prefix. reflexivity.
Qed.

Lemma order_desc_newest_last (l : list Message) (x : Message) :
  Forall (fun m => created_at m < created_at x) l ->
  order_by_created_at_desc (l ++ [x]) = x :: order_by_created_at_desc l.
Proof.
  induction 1 as [|a l Ha _ IH]; simpl; [reflexivity|].
  rewrite IH. simpl.
  destruct (Z.leb_spec (created_at x) (created_at a)); [lia|reflexivity].
Qed.

Lemma filter_all_false {A} (f : A -> bool) (l : list A) :
  Forall (fun a => f a = false) l -> List.filter f l = [].
Proof.
  induction 1 as [|a l Ha _ IH]; simpl; [reflexivity|]. now rewrite Ha.
Qed.

Lemma filter_all_true {A} (f : A -> bool) (l : list A) :
  Forall (fun a => f a = true) l -> List.filter f l = l.
Proof.
  induction 1 as [|a l Ha _ IH]; simpl; [reflexivity|].
  now rewrite Ha, IH.
Qed.

Lemma filter_filter {A} (f g : A -> bool) (l : list A) :
  List.filter g (List.filter f l) = List.filter (fun a => f a && g a) l.
Proof.
  induction l as [|a l IH]; simpl; [reflexivity|].
  destruct (f a); simpl; [|exact IH]. destruct (g a); now rewrite IH.
Qed.

Lemma append_all_cons db now r c (l : list (Z * string * string)) :
  append_all db ((now, r, c) :: l)
  = append_all (add_message db now (PStr r) (PStr c)).2 l.
Proof. reflexivity. Qed.

(** What [append_all] adds to a store whose storage layer works. *)
Lemma append_all_rows (l : list (Z * string * string)) (db : database) :
  engine_error db = None ->
  exists after,
    rows (append_all db l) = rows db ++ after
    /\ engine_error (append_all db l) = None
    /\ Forall (fun m => next_id db <= id m) after
    /\ (Forall (fun '(_, r, c) => separator_like r c = false) l ->
        Forall (fun m => is_separator m = false) after).
Proof.
  revert db. induction l as [|[[now r] c] l IH]; intros db He.
  - exists []. simpl. rewrite app_nil_r. repeat split; auto.
  - rewrite append_all_cons.
    destruct (add_message_rows db now (PStr r) (PStr c))
      as [E|(E & _)]; rewrite E.
    + destruct (IH db He) as (after & H1 & H2 & H3 & H4).
      exists after. repeat split; auto.
      intros Hl. apply Forall_cons in Hl as [_ Hl]. auto.
    + match goal with
      | |- context [append_all ?d l] =>
          destruct (IH d eq_refl) as (after & H1 & H2 & H3 & H4)
      end.
      cbn [rows next_id] in H1, H3.
      eexists (_ :: after). rewrite H1, <- app_assoc.
      split; [reflexivity|]. split; [exact H2|]. split.
      * constructor; [cbn [id]; lia|].
        eapply Forall_impl; [exact H3|]. cbn beta. intros; lia.
      * intros Hl. apply Forall_cons in Hl as [Hs Hl].
        constructor; [|auto].
        unfold separator_like in Hs. unfold is_separator.
        cbn [role content str_of]. exact Hs.
Qed.

Lemma filtered_current db search role sid before after sep :
  rows db = before ++ sep :: after ->
  last_separator_id db = Some sid ->
  sid <> 0 -> id sep = sid ->
  Forall (fun m => id m < sid) before ->
  Forall (fun m => sid <= id m) after ->
  filtered db search role true
  = List.filter (matches_filters search role) (sep :: after).
Proof.
  intros Hrows Hsep Hnz Hid Hb Ha.
  remember (sep :: after) as q eqn:Hq.
  unfold filtered. rewrite Hsep. simpl.
  destruct (Z.eqb_spec sid 0); [contradiction|]. simpl.
  assert (List.filter (fun m => sid <=? id m) (rows db) = q) as ->.
  { rewrite Hrows, Hq, List.filter_app. simpl.
    rewrite filter_all_false.
    2:{ eapply Forall_impl; [exact Hb|]. simpl. intros m Hm.
        apply Z.leb_gt. exact Hm. }
    destruct (Z.leb_spec sid (id sep)); [|lia]. simpl. f_equal.
    apply filter_all_true.
    eapply Forall_impl; [exact Ha|]. simpl. intros m Hm.
    now apply Z.leb_le. }
  clear Hq. unfold matches_filters.
  destruct (str_truthy search) as [s0|], (str_truthy role) as [r0|].
  - now rewrite filter_filter.
  - apply List.filter_ext. intros m. now rewrite andb_true_r.
  - reflexivity.
  - symmetry. now apply filter_all_true, Forall_forall.
Qed.

Lemma to_dict_inj (m m' : Message) : to_dict m = to_dict m' -> m = m'.
Proof. destruct m, m'. unfold to_dict. simpl. congruence. Qed.

Section Conversation.
Variable strftime : Z -> string.

(** C6, as the code has it.  After [create_new_conversation] has
    appended a separator to a store whose rows are all older, and any
    messages other than separators have been appended after it, a query
    with [current_conversation_only = true] returns only the separator
    row itself and messages appended after it, and none of the
    messages appended before it.  The page is ordered from latest to
    earliest timestamp, it is the slice [offset, offset + limit) of the
    matching messages, and the total is the number of messages of the
    current conversation that match the filters, before pagination. *)
Theorem C6_current_conversation db now now' later
    limit offset search role :
  well_formed db now' ->
  Forall (fun '(_, r, c) => separator_like r c = false) later ->
  0 <= offset ->
  let sep := separator_row strftime db now now' in
  let db1 := (create_new_conversation strftime db now now').2 in
  let db2 := append_all db1 later in
  exists after msgs,
    rows db2 = rows db ++ sep :: after
    /\ get_all_messages db2 limit offset search role true
       = Ok (to_dict <$> msgs,
             Z.of_nat (length (List.filter (matches_filters search role)
                                 (sep :: after))))
    /\ msgs = take (Z.to_nat (effective_limit limit))
                (drop (Z.to_nat offset)
                   (order_by_created_at_desc
                      (List.filter (matches_filters search role)
                         (sep :: after))))
    /\ (forall m, m ∈ msgs -> m = sep \/ m ∈ after)
    /\ (forall m, m ∈ rows db -> to_dict m ∉ to_dict <$> msgs)
    /\ newest_first msgs.
Proof.
  intros (Hpos & Hrows & He) Hlater Hoff sep db1 db2.
  assert (db1 = {| rows := rows db ++ [sep]; next_id := next_id db + 1;
                   engine_error := None |}) as Hdb1.
  { unfold db1, create_new_conversation. now rewrite He. }
  destruct (append_all_rows later db1) as (after & Hr2 & He2 & Hids & Hns).
  { now rewrite Hdb1. }
  fold db2 in Hr2, He2. specialize (Hns Hlater).
  rewrite Hdb1 in Hr2, Hids. simpl in Hr2, Hids.
  rewrite <- app_assoc in Hr2. simpl in Hr2.
  assert (last_separator_id db2 = Some (next_id db)) as Hsid.
  { pose proof (separator_row_is_separator strftime db now now') as Hsp.
    fold sep in Hsp.
    unfold last_separator_id. rewrite Hr2, List.filter_app.
    cbn [List.filter]. rewrite Hsp.
    rewrite (filter_all_false is_separator after Hns).
    rewrite order_desc_newest_last; [reflexivity|].
    apply Forall_forall. intros m Hm.
    apply list_elem_of_In, List.filter_In in Hm as [Hm _].
    apply list_elem_of_In in Hm.
    rewrite Forall_forall in Hrows. now apply Hrows. }
  assert (filtered db2 search role true
          = List.filter (matches_filters search role) (sep :: after))
    as Hfil.
  { apply (filtered_current db2 search role (next_id db) (rows db));
      auto; try lia.
    - eapply Forall_impl; [exact Hrows|]. simpl. now intros m [? _].
    - eapply Forall_impl; [exact Hids|]. simpl. intros; lia. }
  exists after.
  eexists. split; [exact Hr2|].
  rewrite (get_all_messages_ok db2 limit offset search role true Hoff He2).
  rewrite Hfil. split; [reflexivity|]. split; [reflexivity|].
  assert (forall m,
            m ∈ take (Z.to_nat (effective_limit limit))
                  (drop (Z.to_nat offset)
                     (order_by_created_at_desc
                        (List.filter (matches_filters search role)
                           (sep :: after)))) ->
            m = sep \/ m ∈ after) as Hin.
  { intros m Hm. apply subseteq_take, subseteq_drop in Hm.
    rewrite order_desc_perm in Hm.
    apply list_elem_of_In, List.filter_In in Hm as [Hm _].
    apply list_elem_of_In, elem_of_cons in Hm. exact Hm. }
  split; [exact Hin|]. split.
  - intros m Hm Hd. apply list_elem_of_fmap in Hd as (m' & Hd & Hm').
    apply to_dict_inj in Hd. subst m'.
    rewrite Forall_forall in Hrows. destruct (Hrows m Hm) as [Hlt _].
    destruct (Hin m Hm') as [->|Ha].
    + simpl in Hlt. lia.
    + rewrite Forall_forall in Hids. specialize (Hids m Ha). lia.
  - apply newest_first_take, newest_first_drop, order_desc_sorted.
Qed.
End Conversation.

(** After a new conversation was started and one message appended, the
    query returns two messages: the new one and the separator itself,
    which was not appended after the separator. *)
Lemma C6_counterexample :
  let sep := separator_row sample_clock old_db 2 2 in
  let new := {| id := 3; role := "user"; content := "new";
                created_at := 3 |} in
  rows fresh_db = rows old_db ++ [sep]
  /\ rows talk_db = rows fresh_db ++ [new]
  /\ get_all_messages talk_db (Some 100) 0 None None true
     = Ok ([to_dict new; to_dict sep], 2)
  /\ to_dict sep ∉ to_dict <$> [new].
Proof.
  split; [reflexivity|]. split; [reflexivity|]. split; [reflexivity|].
  intros H. apply list_elem_of_In in H. destruct H as [H|[]].
  discriminate H.
Qed.

Lemma C6_current_conversation_witness :
  exists after msgs,
    rows talk_db = rows old_db ++ separator_row sample_clock old_db 2 2 :: after
    /\ get_all_messages talk_db (Some 100) 0 None None true
       = Ok (to_dict <$> msgs,
             Z.of_nat (length (List.filter (matches_filters None None)
                                 (separator_row sample_clock old_db 2 2
                                  :: after))))
    /\ (forall m, m ∈ rows old_db -> to_dict m ∉ to_dict <$> msgs)
    /\ newest_first msgs.
Proof.
  destruct (C6_current_conversation sample_clock old_db 2 2
              [(3, "user", "new")] (Some 100) 0 None None)
    as (after & msgs & H1 & H2 & _ & _ & H5 & H6).
  - unfold well_formed. split; [reflexivity|]. split; [|reflexivity].
    repeat constructor.
  - repeat constructor.
  - lia.
  - exists after, msgs. auto.
Defined.

End StoreFacts.

(** * The chunk consumer and the ask command (app.py) *)

Module AppFacts.
Import PyStr Groq ChatDB App Notions AppNotions.

(** The [interrupted] mark is only set on Ctrl-C. *)
Lemma consume_keyboard_interrupt events gen_end inputs full cur last :
  (consume events gen_end inputs full cur last).2 = KeyboardInterrupt ->
  CtrlC ∈ inputs.
Proof.
  revert inputs full cur last.
  induction events as [|ev rest IH]; intros inputs full cur last; simpl.
  - destruct gen_end; discriminate.
  - destruct (has_error ev); [discriminate|].
    destruct (_ && _).
    + destruct inputs as [|[l| |] inputs']; simpl; try discriminate.
      * destruct (String.eqb (lower l) "q"); [discriminate|].
        intros H. apply IH in H. now apply elem_of_cons; right.
      * intros _. apply elem_of_cons. now left.
    + apply IH.
Qed.

(** Whatever the stream and whatever is typed at the pause, short of
    Ctrl-C, the metadata of [process_stream] has no [interrupted] entry. *)
Lemma process_stream_not_marked client inputs t0 t1 messages model
    max_tokens temperature :
  CtrlC ∉ inputs ->
  (process_stream client inputs t0 t1 messages model max_tokens
     temperature).2 !! "interrupted" = None.
Proof.
  intros Hno. unfold process_stream.
  destruct (stream_response _ _ _ _ _ _ _ _) as [[tr gen_end] u].
  pose proof (consume_keyboard_interrupt (yields tr) gen_end inputs [] []
                None) as Hk.
  destruct (consume _ _ _ _ _ _) as [full how]. simpl in Hk.
  destruct how; simpl; try reflexivity.
  now destruct Hno; apply Hk.
Qed.

(** C3, on the code.  The user answers q at the pause after a chunk of
    91 words.  [process_stream] returns the text received so far, without
    the rest of the stream, and metadata with the entries model, tokens
    and time_elapsed: no [interrupted] entry and no [error] entry.
    [ask] then stores that partial text as an assistant message.  The
    same happens when the stream fails after its first chunk: the partial
    text is stored. *)
Theorem C3_quit_response_is_persisted :
  let out := sample_ask long_stream [Line "q"] in
  let out' := sample_ask failing_stream [] in
  let md := normal_metadata Groq.DEFAULT_MODEL (len long_fragment / 4)
              (1 - 0) in
  let md' := normal_metadata Groq.DEFAULT_MODEL 0 (1 - 0) in
  returned out = Some (long_fragment, md)
  /\ md !! "interrupted" = None
  /\ md !! "error" = None
  /\ exit_code out = None
  /\ rows (db_after out)
     = [{| id := 1; role := "user"; content := "hola"; created_at := 10 |};
        {| id := 2; role := "assistant"; content := long_fragment;
           created_at := 20 |}]
  /\ returned out' = Some (join (replicate 30 "w "), md')
  /\ md' !! "interrupted" = None
  /\ md' !! "error" = None
  /\ rows (db_after out')
     = [{| id := 1; role := "user"; content := "hola"; created_at := 10 |};
        {| id := 2; role := "assistant";
           content := join (replicate 30 "w "); created_at := 20 |}].
Proof.
  cbv zeta. repeat split; vm_compute; reflexivity.
Qed.

End AppFacts.

(** * Further properties of the message window *)

Module WindowMore.
Import PyStr Groq Notions WindowFacts.

Lemma filter_is_system_idem (xs : list message) :
  List.filter is_system (List.filter is_system xs) = List.filter is_system xs.
Proof.
  induction xs as [|m xs IH]; simpl; [reflexivity|].
  destruct (is_system m) eqn:E; simpl; [|exact IH]. now rewrite E, IH.
Qed.

Lemma filter_non_system_idem (xs : list message) :
  List.filter non_system (List.filter non_system xs)
  = List.filter non_system xs.
Proof.
  induction xs as [|m xs IH]; simpl; [reflexivity|].
  destruct (non_system m) eqn:E; simpl; [|exact IH]. now rewrite E, IH.
Qed.

Lemma filter_system_of_non_system (xs : list message) :
  List.filter is_system (List.filter non_system xs) = [].
Proof.
  induction xs as [|m xs IH]; simpl; [reflexivity|].
  unfold non_system at 1. destruct (is_system m) eqn:E; simpl; [exact IH|].
  now rewrite E.
Qed.

Lemma filter_non_system_of_system (xs : list message) :
  List.filter non_system (List.filter is_system xs) = [].
Proof.
  induction xs as [|m xs IH]; simpl; [reflexivity|].
  destruct (is_system m) eqn:E; simpl; [|exact IH].
  unfold non_system at 1. now rewrite E.
Qed.

Lemma filter_drop_nil {A} (f : A -> bool) (n : nat) (xs : list A) :
  List.filter f xs = [] -> List.filter f (drop n xs) = [].
Proof.
  revert n. induction xs as [|x xs IH]; intros [|n] H; simpl in *; auto.
  destruct (f x); [discriminate|auto].
Qed.

Lemma filter_drop_all {A} (f : A -> bool) (n : nat) (xs : list A) :
  List.filter f xs = xs -> List.filter f (drop n xs) = drop n xs.
Proof.
  revert n. induction xs as [|x xs IH]; intros [|n] H; simpl in *; auto.
  destruct (f x) eqn:E.
  - injection H as H. auto.
  - pose proof (List.filter_length_le f xs) as L.
    rewrite H in L. simpl in L. lia.
Qed.

Lemma system_prompt_is_system : is_system SYSTEM_PROMPT = true.
Proof. reflexivity. Qed.

Lemma ensure_system_non_system (xs : list message) :
  List.filter non_system (ensure_system xs) = List.filter non_system xs.
Proof.
  unfold ensure_system. destruct (existsb is_system xs); [reflexivity|].
  simpl. unfold non_system at 1. now rewrite system_prompt_is_system.
Qed.

Lemma existsb_filter_system (xs : list message) :
  existsb is_system xs = true -> (1 <= length (List.filter is_system xs))%nat.
Proof.
  induction xs as [|m xs IH]; simpl; [discriminate|].
  destruct (is_system m); simpl; [lia|auto].
Qed.

Lemma last_n_all {A} (n : nat) (xs : list A) :
  (length xs <= n)%nat -> last_n n xs = xs.
Proof.
  intros H. unfold last_n.
  replace (length xs - n)%nat with 0%nat by lia. reflexivity.
Qed.

Lemma limit_messages_system (es : list message) :
  existsb is_system es = true ->
  existsb is_system (limit_messages es) = true.
Proof.
  intros Hsys. destruct (Nat.le_gt_cases (length es) 21) as [Hle|Hgt].
  - now rewrite limit_messages_small.
  - rewrite limit_messages_large by exact Hgt.
    rewrite existsb_app. apply orb_true_iff. left.
    apply existsb_filter_nonempty. rewrite filter_is_system_idem.
    pose proof (existsb_filter_system es Hsys).
    destruct (List.filter is_system es); [simpl in *; lia|discriminate].
Qed.

Lemma limit_messages_filters (es : list message) :
  (21 < length es)%nat ->
  List.filter is_system (limit_messages es) = List.filter is_system es
  /\ List.filter non_system (limit_messages es)
     = last_n 20 (List.filter non_system es).
Proof.
  intros Hgt. rewrite limit_messages_large by exact Hgt.
  rewrite !List.filter_app. unfold last_n.
  rewrite (filter_drop_nil is_system), (filter_drop_all non_system),
    filter_is_system_idem, filter_non_system_of_system, app_nil_r;
    auto using filter_non_system_idem, filter_system_of_non_system.
Qed.

(** The request always has a system message and at most 20 others.  No
    system message is ever dropped, and the other messages that stay are
    the most recent ones, in their order. *)
Theorem window_keeps_system_and_recent (messages : list message) :
  existsb is_system (window_messages messages) = true
  /\ (length (List.filter non_system (window_messages messages)) <= 20)%nat
  /\ List.filter is_system (window_messages messages)
     = List.filter is_system (ensure_system messages)
  /\ exists older,
       List.filter non_system messages
       = older ++ List.filter non_system (window_messages messages).
Proof.
  unfold window_messages.
  pose proof (ensure_system_has_system messages) as Hsys.
  pose proof (ensure_system_non_system messages) as Hns.
  set (es := ensure_system messages) in *.
  split; [now apply limit_messages_system|].
  destruct (Nat.le_gt_cases (length es) 21) as [Hle|Hgt].
  - rewrite limit_messages_small by exact Hle. split.
    + pose proof (filter_split_length es).
      pose proof (existsb_filter_system es Hsys). lia.
    + split; [reflexivity|]. exists []. now rewrite Hns.
  - destruct (limit_messages_filters es Hgt) as [-> ->].
    split; [rewrite last_n_length; lia|]. split; [reflexivity|].
    rewrite <- Hns. apply last_n_suffix.
Qed.

(** Windowing a list that was already windowed changes nothing. *)
Theorem window_idempotent (messages : list message) :
  window_messages (window_messages messages) = window_messages messages.
Proof.
  unfold window_messages at 1.
  assert (existsb is_system (window_messages messages) = true) as Hsys.
  { apply limit_messages_system, ensure_system_has_system. }
  unfold ensure_system. rewrite Hsys. unfold window_messages.
  set (es := ensure_system messages).
  destruct (Nat.le_gt_cases (length es) 21) as [Hle|Hgt].
  - rewrite (limit_messages_small es Hle).
    exact (limit_messages_small es Hle).
  - destruct (Nat.le_gt_cases (length (limit_messages es)) 21) as [Hle'|Hgt'].
    + exact (limit_messages_small _ Hle').
    + rewrite (limit_messages_large (limit_messages es)) by exact Hgt'.
      destruct (limit_messages_filters es Hgt) as [-> ->].
      rewrite last_n_all by (rewrite last_n_length; lia).
      now rewrite limit_messages_large.
Qed.

End WindowMore.

(** * Further properties of the response streamer *)

Module StreamerMore.
Import PyStr Groq Notions MoreNotions StringFacts StreamerFacts.

Lemma word_sum_app (a b : list string) :
  word_sum (a ++ b) = word_sum a + word_sum b.
Proof. induction a as [|t a IH]; simpl; [reflexivity|]. rewrite IH. lia. Qed.

Section Chunks.
Context {S : Type}.
Variable chunk_size : Z.
Variable on_chunk : option (@callback S).
Hypothesis Hcont : always_continues on_chunk.

(** With a chunk size that is not positive nothing stays in the buffer. *)
Lemma loop_unbuffered items s :
  chunk_size <= 0 ->
  yields (lr_trace (stream_loop chunk_size on_chunk items None [] 0 s))
  = (fun t => text_event t false) <$> fragments items
  /\ lr_buffer (stream_loop chunk_size on_chunk items None [] 0 s) = [].
Proof.
  intros Hc. revert s. induction items as [|ch rest IH]; intros s.
  - split; reflexivity.
  - rewrite fragments_cons.
    destruct (chunk_delta ch) as [d|] eqn:Hd; [|simpl; rewrite Hd; apply IH].
    pose proof (loop_step chunk_size on_chunk Hcont ch rest d [] 0 s Hd)
      as Hstep.
    cbv zeta in Hstep. pose proof (words_nonneg (delta_text d)).
    destruct (Z.leb_spec chunk_size (0 + words (delta_text d))); [|lia].
    destruct Hstep as (s' & -> & ->). destruct (IH s') as [-> ->].
    split; [|reflexivity]. rewrite fmap_cons. f_equal. f_equal.
    apply join_singleton.
Qed.

(** The chunks of the loop, for a positive chunk size: the fragments
    split into full chunks and a rest that stays in the buffer. *)
Lemma loop_chunks items buffer s :
  0 < chunk_size ->
  word_sum buffer < chunk_size ->
  exists groups rest,
    buffer ++ fragments items = concat groups ++ rest
    /\ yields (lr_trace (stream_loop chunk_size on_chunk items None buffer
                           (word_sum buffer) s))
       = (fun g => text_event (join g) false) <$> groups
    /\ lr_buffer (stream_loop chunk_size on_chunk items None buffer
                    (word_sum buffer) s) = rest
    /\ Forall (full_chunk chunk_size) groups
    /\ word_sum rest < chunk_size.
Proof.
  intros Hc. revert buffer s.
  induction items as [|ch rest IH]; intros buffer s Hb.
  - exists [], buffer. simpl. rewrite app_nil_r. repeat split; auto.
  - rewrite fragments_cons.
    destruct (chunk_delta ch) as [d|] eqn:Hd;
      [|simpl; rewrite Hd; now apply IH].
    pose proof (loop_step chunk_size on_chunk Hcont ch rest d buffer
                  (word_sum buffer) s Hd) as Hstep.
    cbv zeta in Hstep.
    assert (word_sum (buffer ++ [delta_text d])
            = word_sum buffer + words (delta_text d)) as Hsum.
    { rewrite word_sum_app. simpl. lia. }
    destruct (Z.leb_spec chunk_size (word_sum buffer + words (delta_text d))).
    + destruct Hstep as (s' & -> & ->).
      destruct (IH [] s' ltac:(simpl; lia))
        as (groups & rest' & Hcat & Hy & Hbuf & Hfull & Hrest).
      simpl in Hcat, Hy, Hbuf.
      exists ((buffer ++ [delta_text d]) :: groups), rest'.
      split; [simpl; rewrite <- app_assoc, <- Hcat; now rewrite <- app_assoc|].
      split; [rewrite fmap_cons; now rewrite Hy|].
      split; [exact Hbuf|]. split; [|exact Hrest].
      constructor; [|exact Hfull]. unfold full_chunk.
      rewrite removelast_last. lia.
    + rewrite Hstep, <- Hsum.
      destruct (IH (buffer ++ [delta_text d]) s ltac:(lia))
        as (groups & rest' & Hcat & Hy & Hbuf & Hfull & Hrest).
      exists groups, rest'. rewrite <- app_assoc in Hcat. auto.
Qed.
End Chunks.

Section Runs.
Context {S : Type}.
Variable client : request -> api_response.
Variables (model : string) (temperature : Q) (max_tokens chunk_size : Z).
Variable on_chunk : option (@callback S).

Abbreviation run' messages s :=
  (stream_response client messages model temperature max_tokens
     chunk_size on_chunk s).

(** With a chunk size of zero or less, every fragment of the stream is
    emitted at once as a non-final event of its own, and there is no
    final event. *)
Theorem non_positive_chunk_size_unbuffered messages s items :
  client (request_of messages model temperature max_tokens)
  = Streaming items None ->
  chunk_size <= 0 ->
  always_continues on_chunk ->
  yields (run' messages s).1.1
  = (fun t => text_event t false) <$> fragments items.
Proof.
  intros Hclient Hc Hcont.
  destruct (run_events client model temperature max_tokens chunk_size
              on_chunk messages s items Hclient
              (always_continues_never_raises _ Hcont)) as (_ & Hy).
  cbv zeta in Hy. rewrite Hy.
  destruct (loop_unbuffered chunk_size on_chunk Hcont items s Hc) as [-> ->].
  apply app_nil_r.
Qed.

(** With a positive chunk size, the fragments of the stream fall into
    consecutive chunks, each the shortest run of fragments whose word
    counts add up to the chunk size or more, and a rest with fewer words.
    The events are one non-final event per chunk, carrying its joined
    fragments, and a final event for the rest unless the rest is empty. *)
Theorem chunks_are_shortest_full_runs messages s items :
  client (request_of messages model temperature max_tokens)
  = Streaming items None ->
  0 < chunk_size ->
  always_continues on_chunk ->
  exists groups rest,
    fragments items = concat groups ++ rest
    /\ yields (run' messages s).1.1
       = ((fun g => text_event (join g) false) <$> groups)
         ++ match rest with
            | [] => []
            | _ :: _ => [text_event (join rest) true]
            end
    /\ Forall (full_chunk chunk_size) groups
    /\ word_sum rest < chunk_size.
Proof.
  intros Hclient Hc Hcont.
  destruct (run_events client model temperature max_tokens chunk_size
              on_chunk messages s items Hclient
              (always_continues_never_raises _ Hcont)) as (_ & Hy).
  cbv zeta in Hy. rewrite Hy.
  destruct (loop_chunks chunk_size on_chunk Hcont items [] s Hc
              ltac:(simpl; lia))
    as (groups & rest & Hcat & Hev & Hbuf & Hfull & Hrest).
  simpl in Hcat, Hev, Hbuf. exists groups, rest.
  rewrite Hev, Hbuf. auto.
Qed.
End Runs.

Lemma non_positive_chunk_size_unbuffered_witness :
  yields (sample_run [frag "a b"; frag ""; frag "c"] None 0 None tt).1.1
  = [text_event "a b" false; text_event "" false; text_event "c" false].
Proof.
  apply (non_positive_chunk_size_unbuffered
           (fun _ => Streaming [frag "a b"; frag ""; frag "c"] None)
           DEFAULT_MODEL DEFAULT_TEMPERATURE DEFAULT_MAX_TOKENS 0 None [] tt
           [frag "a b"; frag ""; frag "c"] eq_refl ltac:(lia)
           always_continues_None).
Defined.

Lemma chunks_are_shortest_full_runs_witness :
  exists groups rest,
    fragments [frag "a b"; frag "c"; frag "d"] = concat groups ++ rest
    /\ yields (sample_run [frag "a b"; frag "c"; frag "d"] None 2 None tt).1.1
       = ((fun g => text_event (join g) false) <$> groups)
         ++ match rest with
            | [] => []
            | _ :: _ => [text_event (join rest) true]
            end
    /\ Forall (full_chunk 2) groups
    /\ word_sum rest < 2.
Proof.
  apply (chunks_are_shortest_full_runs
           (fun _ => Streaming [frag "a b"; frag "c"; frag "d"] None)
           DEFAULT_MODEL DEFAULT_TEMPERATURE DEFAULT_MAX_TOKENS 2 None [] tt
           [frag "a b"; frag "c"; frag "d"] eq_refl ltac:(lia)
           always_continues_None).
Defined.

End StreamerMore.

(** * Properties of stream_chat_response (groq_client.py, lines 159-223) *)

Module ChatMore.
Import PyStr Groq GroqChat Notions MoreNotions StringFacts StreamerFacts.

Lemma after_first_separator_some (h rest : list message) :
  after_first_separator h = Some rest ->
  exists before sep,
    h = before ++ sep :: rest
    /\ Forall (fun m => is_separator m = false) before
    /\ is_separator sep = true.
Proof.
  induction h as [|m h IH]; simpl; [discriminate|].
  destruct (is_separator m) eqn:E.
  - intros [= <-]. exists [], m. auto.
  - intros H. destruct (IH H) as (before & sep & -> & Hb & Hs).
    exists (m :: before), sep. auto.
Qed.

Lemma after_first_separator_none (h : list message) :
  after_first_separator h = None <->
  Forall (fun m => is_separator m = false) h.
Proof.
  induction h as [|m h IH]; simpl.
  - split; auto.
  - destruct (is_separator m) eqn:E.
    + split; [discriminate|]. intros H. apply Forall_cons in H as [H _].
      congruence.
    + rewrite IH. split; [now constructor|].
      intros H. now apply Forall_cons in H as [_ H].
Qed.

Lemma after_first_separator_split (before after : list message)
    (sep : message) :
  Forall (fun m => is_separator m = false) before ->
  is_separator sep = true ->
  after_first_separator (before ++ sep :: after) = Some after.
Proof.
  intros Hb Hs. induction Hb as [|m before Hm _ IH]; simpl.
  - now rewrite Hs.
  - now rewrite Hm.
Qed.

Lemma chat_messages_window (question : string)
    (history : option (list message)) :
  let window := last_n 40 (default [] history) in
  chat_messages question history
  = SYSTEM_PROMPT
    :: default window (after_first_separator window)
       ++ [mk_message "user" question].
Proof.
  destruct history as [[|m h]|]; try reflexivity.
  cbv zeta. unfold chat_messages.
  change (default [] (Some (m :: h))) with (m :: h).
  destruct (Z.ltb_spec 40 (Z.of_nat (length (m :: h)))).
  - reflexivity.
  - rewrite WindowMore.last_n_all by lia. reflexivity.
Qed.

(** The request starts with the system prompt and ends with the question.
    Between them stands a tail of the history, of at most 40 messages: the
    last 40 when none of them is a separator, and otherwise what follows
    the first separator among the last 40. *)
Theorem chat_request_shape {S} (client : request -> api_response)
    (question : string) (history : option (list message))
    (on_token : option (@token_callback S)) (s : S) :
  let window := last_n 40 (default [] history) in
  exists h,
    req_messages (cr_request
                    (stream_chat_response client question history on_token s))
    = SYSTEM_PROMPT :: h ++ [mk_message "user" question]
    /\ (length h <= 40)%nat
    /\ (exists dropped, default [] history = dropped ++ h)
    /\ (Forall (fun m => is_separator m = false) window -> h = window)
    /\ (forall before sep after,
          window = before ++ sep :: after ->
          Forall (fun m => is_separator m = false) before ->
          is_separator sep = true ->
          h = after).
Proof.
  intros window.
  exists (default window (after_first_separator window)).
  split.
  { unfold stream_chat_response.
    destruct (client _); [|destruct (chat_loop _ _ _ _ _) as [[? ?] ?]];
      cbn [cr_request req_messages]; apply chat_messages_window. }
  destruct (WindowFacts.last_n_suffix 40 (default [] history)) as [older Ho].
  fold window in Ho.
  assert (length window <= 40)%nat as Hlen.
  { unfold window. rewrite WindowFacts.last_n_length. lia. }
  destruct (after_first_separator window) as [rest|] eqn:E;
    cbn [from_option].
  - change (id rest) with rest.
    destruct (after_first_separator_some _ _ E) as (before & sep & Hw & Hb & Hs).
    split; [rewrite Hw, length_app in Hlen; simpl in Hlen; lia|].
    split.
    { exists (older ++ before ++ [sep]). rewrite Ho, Hw.
      now rewrite <- !app_assoc. }
    split.
    { intros Hall. apply after_first_separator_none in Hall. congruence. }
    intros before' sep' after' Hw' Hb' Hs'.
    rewrite Hw', (after_first_separator_split _ _ _ Hb' Hs') in E.
    congruence.
  - split; [exact Hlen|]. split; [now exists older|]. split; [reflexivity|].
    intros before' sep' after' Hw' Hb' Hs'.
    rewrite Hw', (after_first_separator_split _ _ _ Hb' Hs') in E.
    discriminate.
Qed.

(** A later separator and what stands between the two stay in the
    request. *)
Lemma chat_request_shape_witness :
  req_messages (cr_request
                  (stream_chat_response (S := unit)
                     (fun _ => Streaming [] None) "q"
                     (Some two_conversations) None tt))
  = SYSTEM_PROMPT
    :: drop 1 two_conversations ++ [mk_message "user" "q"].
Proof.
  destruct (chat_request_shape (S := unit) (fun _ => Streaming [] None) "q"
              (Some two_conversations) None tt)
    as (h & Hreq & _ & _ & _ & Hsep).
  rewrite Hreq.
  rewrite (Hsep [] (mk_message "system" (separator_start +:+ " one"))
             (drop 1 two_conversations)); try reflexivity.
  constructor.
Defined.

Section Loop.
Context {S : Type}.
Variable on_token : option (@token_callback S).
Hypothesis Hquiet : token_never_raises on_token.

(** The loop over well-shaped items hands each text to the callback and
    appends it to the response. *)
Lemma chat_loop_app pre rest fin full s :
  well_shaped pre ->
  exists s1,
    (chat_loop on_token (pre ++ rest) fin full s).1.2
    = (chat_loop on_token rest fin (full +:+ join (fragments pre)) s1).1.2
    /\ (chat_loop on_token (pre ++ rest) fin full s).1.1
       = delivered_tokens on_token pre
         ++ (chat_loop on_token rest fin
               (full +:+ join (fragments pre)) s1).1.1.
Proof.
  intros Hpre. revert full s.
  induction Hpre as [|ch pre [d Hd] _ IH]; intros full s.
  - exists s. simpl. rewrite str_app_nil_r. destruct on_token; auto.
  - assert (fragments (ch :: pre) = delta_text d :: fragments pre) as Hfr
      by now rewrite fragments_cons, Hd.
    unfold delivered_tokens. rewrite Hfr, join_cons, <- str_app_assoc.
    cbn [app chat_loop].
    unfold chunk_delta in Hd. destruct (choices ch) as [|c cs]; [discriminate|].
    rewrite Hd.
    destruct on_token as [f|] eqn:Hcb.
    + pose proof (Hquiet f eq_refl s (delta_text d)) as Hr.
      destruct (f s (delta_text d)) as [r s']. simpl in Hr. subst r.
      destruct (IH (full +:+ delta_text d) s') as (s1 & H1 & H2).
      exists s1. unfold delivered_tokens in H2.
      destruct (chat_loop (Some f) (pre ++ rest) fin
                  (full +:+ delta_text d) s') as [[dl o] s''].
      simpl in H1, H2 |- *. rewrite H1, H2. auto.
    + destruct (IH (full +:+ delta_text d) s) as (s1 & H1 & H2).
      exists s1. auto.
Qed.
End Loop.

Section Calls.
Context {S : Type}.
Variable client : request -> api_response.
Variables (question : string) (history : option (list message)).
Variable on_token : option (@token_callback S).
Variable s : S.

Abbreviation call :=
  (stream_chat_response client question history on_token s).

(** When the stream ends without an exception, every item has a first
    choice with a delta and the callback does not raise, the call returns
    the texts of the stream joined in order, and the callback has
    received exactly those texts, one call each, in that order. *)
Theorem chat_returns_joined_tokens items :
  client (chat_request question history) = Streaming items None ->
  well_shaped items ->
  token_never_raises on_token ->
  cr_outcome call = ChatReturned (join (fragments items))
  /\ cr_delivered call = delivered_tokens on_token items.
Proof.
  intros Hclient Hshape Hquiet. unfold stream_chat_response.
  change {| req_model := DEFAULT_MODEL;
            req_messages := chat_messages question history;
            req_temperature := DEFAULT_TEMPERATURE;
            req_max_completion_tokens := DEFAULT_MAX_TOKENS |}
    with (chat_request question history).
  rewrite Hclient.
  destruct (chat_loop_app on_token Hquiet items [] None "" s Hshape)
    as (s1 & H1 & H2).
  rewrite app_nil_r in H1, H2.
  destruct (chat_loop on_token items None "" s) as [[dl o] s'].
  simpl in *. rewrite H1, H2, app_nil_r. auto.
Qed.

(** The call never turns a failure into a result.  If the client raises
    at the call, or the stream raises after well-shaped items, the call
    raises that exception.  If an item has no choice or no delta, the call
    raises at that item.  In each case the text received so far is not
    returned, and the callback has received the texts that came before. *)
Theorem chat_failure_is_raised :
  (forall e,
     client (chat_request question history) = CreateRaises e ->
     cr_outcome call = ChatRaised e /\ cr_delivered call = [])
  /\ (forall items e,
        client (chat_request question history) = Streaming items (Some e) ->
        well_shaped items -> token_never_raises on_token ->
        cr_outcome call = ChatRaised e
        /\ cr_delivered call = delivered_tokens on_token items)
  /\ (forall pre ch post fin,
        client (chat_request question history)
        = Streaming (pre ++ ch :: post) fin ->
        well_shaped pre -> token_never_raises on_token ->
        chunk_delta ch = None ->
        (exists e, cr_outcome call = ChatRaised e)
        /\ cr_delivered call = delivered_tokens on_token pre).
Proof.
  unfold stream_chat_response.
  change {| req_model := DEFAULT_MODEL;
            req_messages := chat_messages question history;
            req_temperature := DEFAULT_TEMPERATURE;
            req_max_completion_tokens := DEFAULT_MAX_TOKENS |}
    with (chat_request question history).
  split; [|split].
  - intros e ->. auto.
  - intros items e -> Hshape Hquiet.
    destruct (chat_loop_app on_token Hquiet items [] (Some e) "" s Hshape)
      as (s1 & H1 & H2).
    rewrite app_nil_r in H1, H2.
    destruct (chat_loop on_token items (Some e) "" s) as [[dl o] s'].
    simpl in *. rewrite H1, H2, app_nil_r. auto.
  - intros pre ch post fin -> Hshape Hquiet Hnone.
    destruct (chat_loop_app on_token Hquiet pre (ch :: post) fin "" s Hshape)
      as (s1 & H1 & H2).
    destruct (chat_loop on_token (pre ++ ch :: post) fin "" s)
      as [[dl o] s'].
    simpl in H1, H2 |- *. rewrite H1, H2. clear H1 H2.
    unfold chunk_delta in Hnone.
    destruct (choices ch) as [|c cs]; simpl.
    + rewrite app_nil_r. eauto.
    + rewrite Hnone. simpl. rewrite app_nil_r. eauto.
Qed.
End Calls.

Lemma token_never_raises_None {S} :
  token_never_raises (@None (@token_callback S)).
Proof. intros f [=]. Qed.

Lemma chat_returns_joined_tokens_witness :
  cr_outcome (stream_chat_response (S := unit)
                (fun _ => Streaming [frag "Ho"; frag "la"] None)
                "q" None None tt)
  = ChatReturned "Hola".
Proof.
  apply (chat_returns_joined_tokens (S := unit)
           (fun _ => Streaming [frag "Ho"; frag "la"] None)
           "q" None None tt [frag "Ho"; frag "la"] eq_refl).
  - repeat constructor; eexists; reflexivity.
  - apply token_never_raises_None.
Defined.

Lemma chat_failure_is_raised_witness :
  (exists e,
     cr_outcome (stream_chat_response (S := unit)
                   (fun _ => Streaming [frag "Ho"; {| choices := [] |};
                                        frag "la"] None)
                   "q" None None tt)
     = ChatRaised e)
  /\ cr_outcome (stream_chat_response (S := unit)
                   (fun _ => CreateRaises "boom") "q" None None tt)
     = ChatRaised "boom".
Proof.
  split.
  - apply (proj2 (proj2 (chat_failure_is_raised (S := unit)
                           (fun _ => Streaming [frag "Ho"; {| choices := [] |};
                                                frag "la"] None)
                           "q" None None tt))
             [frag "Ho"] {| choices := [] |} [frag "la"] None eq_refl).
    + repeat constructor; eexists; reflexivity.
    + apply token_never_raises_None.
    + reflexivity.
  - apply (proj1 (chat_failure_is_raised (S := unit)
                    (fun _ => CreateRaises "boom") "q" None None tt)
             "boom" eq_refl).
Defined.

End ChatMore.

(** * Further properties of the message store *)

Module StoreMore.
Import PyStr ChatDB ChatSummary StoreNotions MoreNotions StringFacts StoreFacts.

(** ** Identifiers *)

Lemma ids_increasing_append (db : database) (m : Message) (e : option string) :
  ids_increasing db -> id m = next_id db ->
  ids_increasing {| rows := rows db ++ [m]; next_id := next_id db + 1;
                    engine_error := e |}.
Proof.
  intros [Hinc Hlt] Hid. split; simpl.
  - intros i j a b Ha Hb Hij.
    apply lookup_app_Some in Ha as [Ha|[Hi Ha]];
      apply lookup_app_Some in Hb as [Hb|[Hj Hb]].
    + eapply Hinc; eauto.
    + destruct (j - length (rows db))%nat; [|discriminate].
      injection Hb as <-. rewrite Forall_forall in Hlt.
      apply list_elem_of_lookup_2 in Ha. specialize (Hlt a Ha). lia.
    + apply lookup_lt_Some in Hb. lia.
    + destruct (i - length (rows db))%nat eqn:Ei; [|discriminate].
      destruct (j - length (rows db))%nat eqn:Ej; [|discriminate]. lia.
  - apply Forall_app. split.
    + eapply Forall_impl; [exact Hlt|]. simpl. intros; lia.
    + repeat constructor. lia.
Qed.

Lemma ids_increasing_engine (db : database) (e : option string) :
  ids_increasing db ->
  ids_increasing {| rows := rows db; next_id := next_id db;
                    engine_error := e |}.
Proof. intros H. exact H. Qed.

(** Identifiers are assigned in increasing order and never again: the
    store starts with, and every operation keeps, a table whose ids grow
    with the order of insertion and stay below the sequence; the sequence
    never goes back, not even when the table is cleared; so no two rows
    share an id. *)
Theorem ids_are_never_reused (strftime : Z -> string) :
  ids_increasing empty_db
  /\ (forall db o,
        ids_increasing db ->
        ids_increasing (apply_op strftime db o)
        /\ next_id db <= next_id (apply_op strftime db o))
  /\ (forall db, ids_increasing db -> NoDup (id <$> rows db)).
Proof.
  split; [|split].
  - split; [|constructor]. intros i j a b Ha. discriminate Ha.
  - intros db o Hinv.
    destruct o as [now r c|now now'| | | |e]; simpl;
      try (split; [exact Hinv|lia]).
    + destruct (add_message_rows db now r c) as [->|(-> & _)];
        [split; [exact Hinv|lia]|].
      split; [now apply ids_increasing_append|simpl; lia].
    + unfold create_new_conversation.
      destruct (engine_error db); simpl; [split; [exact Hinv|lia]|].
      split; [now apply ids_increasing_append|lia].
    + unfold clear_chat_history.
      destruct (engine_error db); simpl; [split; [exact Hinv|lia]|].
      split; [|lia]. split; [|constructor].
      intros i j a b Ha. discriminate Ha.
  - intros db [Hinc _]. apply NoDup_alt. intros i j x Hi Hj.
    rewrite list_lookup_fmap in Hi, Hj.
    destruct (rows db !! i) as [a|] eqn:Ha; [|discriminate].
    destruct (rows db !! j) as [b|] eqn:Hb; [|discriminate].
    simpl in Hi, Hj. injection Hi as Hi. injection Hj as Hj.
    destruct (Nat.lt_trichotomy i j) as [Hlt|[Heq|Hgt]]; [|exact Heq|].
    + pose proof (Hinc i j a b Ha Hb Hlt). lia.
    + pose proof (Hinc j i b a Hb Ha Hgt). lia.
Qed.

Lemma ids_are_never_reused_witness :
  let db := apply_op sample_clock
              (apply_op sample_clock
                 (apply_op sample_clock empty_db
                    (OpAdd 1 (PStr "user") (PStr "a")))
                 OpClear)
              (OpAdd 2 (PStr "user") (PStr "b")) in
  ids_increasing db /\ id <$> rows db = [2].
Proof.
  destruct (ids_are_never_reused sample_clock) as (H0 & Hstep & _).
  split; [|reflexivity].
  apply Hstep, Hstep, Hstep, H0.
Defined.

(** ** Pages *)




(** ** The scope of a query *)

Lemma filter_comm {A} (f g : A -> bool) (l : list A) :
  List.filter f (List.filter g l) = List.filter g (List.filter f l).
Proof.
  rewrite !filter_filter. apply List.filter_ext. intros a. apply andb_comm.
Qed.

Lemma filter_filter_length {A} (f g : A -> bool) (l : list A) :
  (length (List.filter f (List.filter g l)) <= length (List.filter f l))%nat.
Proof. rewrite filter_comm. apply List.filter_length_le. Qed.

Lemma filtered_scope db search role cco :
  filtered db search role cco
  = List.filter (matches_filters search role) (scope db cco).
Proof.
  unfold filtered, scope, matches_filters.
  set (q := if cco then last_separator_id db else None).
  assert (match q with
          | Some sid =>
              if cco && negb (sid =? 0)
              then List.filter (fun m => sid <=? id m) (rows db)
              else rows db
          | None => rows db
          end
          = if cco
            then match last_separator_id db with
                 | Some sid =>
                     if negb (sid =? 0)
                     then List.filter (fun m => sid <=? id m) (rows db)
                     else rows db
                 | None => rows db
                 end
            else rows db) as ->.
  { subst q. destruct cco; [|reflexivity].
    destruct (last_separator_id db); reflexivity. }
  generalize (if cco
              then match last_separator_id db with
                   | Some sid =>
                       if negb (sid =? 0)
                       then List.filter (fun m => sid <=? id m) (rows db)
                       else rows db
                   | None => rows db
                   end
              else rows db).
  intros l.
  destruct (str_truthy search) as [s0|], (str_truthy role) as [r0|].
  - now rewrite filter_filter.
  - apply List.filter_ext. intros m. now rewrite andb_true_r.
  - reflexivity.
  - symmetry. now apply filter_all_true, Forall_forall.
Qed.

Lemma scope_without_separator db :
  Forall (fun m => is_separator m = false) (rows db) ->
  scope db true = rows db.
Proof.
  intros H. unfold scope, last_separator_id.
  now rewrite (filter_all_false is_separator (rows db) H).
Qed.

(** The current conversation is a part of the history: for the same
    filters, the total of a query restricted to the current conversation is
    at most the total of the unrestricted query, and as long as the store
    holds no separator the two queries give the same answer. *)
Theorem current_conversation_within_history db limit offset search role
    p1 t1 p2 t2 :
  get_all_messages db limit offset search role true = Ok (p1, t1) ->
  get_all_messages db limit offset search role false = Ok (p2, t2) ->
  t1 <= t2
  /\ (Forall (fun m => is_separator m = false) (rows db) ->
      p1 = p2 /\ t1 = t2).
Proof.
  intros H1 H2.
  apply get_all_messages_page in H1 as (-> & -> & _).
  apply get_all_messages_page in H2 as (-> & -> & _).
  rewrite !filtered_scope. split.
  - apply inj_le. unfold scope at 2.
    unfold scope. destruct (last_separator_id db) as [sid|]; [|lia].
    destruct (negb (sid =? 0)); [|lia]. apply filter_filter_length.
  - intros Hno. now rewrite (scope_without_separator db Hno).
Qed.

Lemma current_conversation_within_history_witness :
  exists p1 t1 p2 t2,
    get_all_messages talk_db (Some 10) 0 None None true = Ok (p1, t1)
    /\ get_all_messages talk_db (Some 10) 0 None None false = Ok (p2, t2)
    /\ t1 = 2 /\ t2 = 3 /\ t1 <= t2.
Proof.
  eexists _, _, _, _. split; [reflexivity|]. split; [reflexivity|].
  split; [reflexivity|]. split; [reflexivity|].
  apply (current_conversation_within_history talk_db (Some 10) 0 None None
           _ _ _ _ eq_refl eq_refl).
Defined.

(** ** The search filter *)

Lemma lower_app (a b : string) : lower (a +:+ b) = lower a +:+ lower b.
Proof.
  induction a as [|c a IH]; [reflexivity|].
  rewrite str_app_cons. simpl. rewrite IH. reflexivity.
Qed.

Lemma plain_lower_char (c : ascii) : plain (lower_char c) = plain c.
Proof. destruct c as [[] [] [] [] [] [] [] []]; reflexivity. Qed.

Lemma all_plain_lower (s : string) : all_plain (lower s) = all_plain s.
Proof.
  induction s as [|c s IH]; simpl; [reflexivity|].
  now rewrite plain_lower_char, IH.
Qed.

Lemma startswith_spec (p s : string) :
  startswith p s = true <-> exists post, s = p +:+ post.
Proof.
  revert s. induction p as [|a p IH]; intros s; simpl.
  - split; [intros _; now exists s|auto].
  - destruct s as [|b s]; simpl.
    + split; [discriminate|]. intros [post H]. discriminate H.
    + rewrite andb_true_iff, IH. split.
      * intros [Hab [post ->]]. apply Ascii.eqb_eq in Hab as ->.
        now exists post.
      * intros [post H]. rewrite str_app_cons in H. injection H as -> ->.
        split; [apply Ascii.eqb_refl|now exists post].
Qed.

Lemma contains_spec (needle hay : string) :
  contains needle hay = true <->
  exists pre post, hay = pre +:+ needle +:+ post.
Proof.
  induction hay as [|c hay IH]; simpl.
  - rewrite orb_false_r, startswith_spec. split.
    + intros [post H]. now exists "", post.
    + intros (pre & post & H). destruct pre; [now exists post|].
      discriminate H.
  - rewrite orb_true_iff, startswith_spec, IH. split.
    + intros [[post H]|(pre & post & ->)].
      * now exists "", post.
      * now exists (String c pre), post.
    + intros (pre & post & H). destruct pre as [|d pre].
      * left. now exists post.
      * right. rewrite str_app_cons in H. injection H as -> ->.
        now exists pre, post.
Qed.

Lemma like_plain_startswith (p s : string) :
  all_plain p = true -> like (p +:+ "%") s = startswith p s.
Proof.
  revert s. induction p as [|c p IH]; intros s Hp.
  - apply like_percent.
  - simpl in Hp. apply andb_true_iff in Hp as [Hc Hp].
    rewrite str_app_cons. unfold plain in Hc.
    apply negb_true_iff, orb_false_iff in Hc as [Hc H3].
    apply orb_false_iff in Hc as [H1 H2].
    simpl. rewrite H1, H2, H3.
    destruct s as [|d s]; [reflexivity|]. now rewrite IH.
Qed.

Lemma like_percent_step (q s : string) :
  like ("%" +:+ q) s
  = like q s
    || match s with
       | EmptyString => false
       | String _ s' => like ("%" +:+ q) s'
       end.
Proof. destruct s; reflexivity. Qed.

Lemma like_contains (p s : string) :
  all_plain p = true -> like ("%" +:+ p +:+ "%") s = contains p s.
Proof.
  intros Hp. induction s as [|c s IH].
  - rewrite like_percent_step, like_plain_startswith by exact Hp.
    reflexivity.
  - rewrite like_percent_step, like_plain_startswith, IH by exact Hp.
    reflexivity.
Qed.

Lemma ilike_contains (s c : string) :
  all_plain s = true ->
  ilike ("%" +:+ s +:+ "%") c = contains (lower s) (lower c).
Proof.
  intros Hp. unfold ilike. rewrite !lower_app.
  change (lower "%") with "%".
  apply like_contains. now rewrite all_plain_lower.
Qed.

(** A search text without the characters [%], [_] and backslash selects
    exactly the messages whose content contains it, letter case aside:
    every message of the page has the lower-cased text inside its
    lower-cased content, and the total is the number of such messages
    among those the other filters select. *)
Theorem search_is_substring_match db limit offset s role cco page total :
  all_plain s = true -> s <> "" ->
  get_all_messages db limit offset (Some s) role cco = Ok (page, total) ->
  Forall (fun d => exists pre post,
            lower (d_content d) = pre +:+ lower s +:+ post) page
  /\ total = Z.of_nat
               (length (List.filter
                          (fun m => contains (lower s) (lower (content m)))
                          (filtered db None role cco))).
Proof.
  intros Hp Hs H. apply get_all_messages_page in H as (-> & -> & _).
  assert (filtered db (Some s) role cco
          = List.filter (fun m => contains (lower s) (lower (content m)))
              (filtered db None role cco)) as Hf.
  { rewrite !filtered_scope. rewrite filter_filter.
    apply List.filter_ext. intros m. unfold matches_filters. simpl.
    destruct (is_empty s) eqn:E; [apply is_empty_true in E; congruence|].
    rewrite ilike_contains by exact Hp.
    destruct (str_truthy role); [apply andb_comm|].
    now rewrite andb_true_r. }
  split; [|now rewrite Hf].
  apply Forall_fmap, Forall_take, Forall_drop.
  rewrite order_desc_perm, Hf. apply Forall_forall. intros m Hm.
  apply list_elem_of_In, List.filter_In in Hm as [_ Hm].
  now apply contains_spec in Hm.
Qed.

Lemma search_is_substring_match_witness :
  exists page,
    get_all_messages talk_db None 0 (Some "NE") None false = Ok (page, 1)
    /\ Forall (fun d => exists pre post,
                 lower (d_content d) = pre +:+ lower "NE" +:+ post) page.
Proof.
  eexists. split; [reflexivity|].
  apply (search_is_substring_match talk_db None 0 "NE" None false _ 1);
    [reflexivity|discriminate|reflexivity].
Defined.

Lemma like_percent_split (r s : string) :
  like ("%" +:+ r) s = true <->
  exists a b, s = a +:+ b /\ like r b = true.
Proof.
  induction s as [|c s IH]; rewrite like_percent_step, orb_true_iff.
  - split.
    + intros [H|H]; [now exists "", ""|discriminate].
    + intros (a & b & H & Hb). left.
      destruct a; [|discriminate H]. change ("" +:+ b) with b in H.
      now subst b.
  - rewrite IH. split.
    + intros [H|(a & b & -> & Hb)].
      * now exists "", (String c s).
      * now exists (String c a), b.
    + intros (a & b & H & Hb). destruct a as [|d a].
      * left. change ("" +:+ b) with b in H. now subst b.
      * right. rewrite str_app_cons in H. injection H as -> ->.
        now exists a, b.
Qed.

Lemma like_plain_split (p r s : string) :
  all_plain p = true ->
  like (p +:+ r) s = true <-> exists t, s = p +:+ t /\ like r t = true.
Proof.
  intros Hp. revert s. induction p as [|c p IH]; intros s.
  - split; [intros H; now exists s|intros (t & -> & H); exact H].
  - simpl in Hp. apply andb_true_iff in Hp as [Hc Hp].
    rewrite str_app_cons. unfold plain in Hc.
    apply negb_true_iff, orb_false_iff in Hc as [Hc H3].
    apply orb_false_iff in Hc as [H1 H2].
    simpl. rewrite H1, H2, H3. destruct s as [|d s].
    + split; [discriminate|]. intros (t & H & _). discriminate H.
    + rewrite andb_true_iff, (IH Hp). split.
      * intros [Hcd (t & -> & Hr)]. apply Ascii.eqb_eq in Hcd as ->.
        now exists t.
      * intros (t & H & Hr). rewrite str_app_cons in H.
        injection H as -> ->. split; [apply Ascii.eqb_refl|now exists t].
Qed.

(** A percent sign in the search text is not escaped: it stands for any
    run of characters.  A search for [p%q], with [p] and [q] free of the
    characters [%], [_] and backslash, selects exactly the messages whose
    content has [p] and, somewhere after it, [q], letter case aside;
    the percent sign itself need not occur. *)
Theorem search_percent_is_wildcard db p q role cco m :
  all_plain p = true -> all_plain q = true ->
  m ∈ filtered db None role cco ->
  m ∈ filtered db (Some (p +:+ "%" +:+ q)) role cco
  <-> exists pre mid post,
        lower (content m)
        = pre +:+ lower p +:+ mid +:+ lower q +:+ post.
Proof.
  intros Hp Hq Hin.
  assert (forall c,
            ilike ("%" +:+ (p +:+ "%" +:+ q) +:+ "%") c = true <->
            exists pre mid post,
              lower c = pre +:+ lower p +:+ mid +:+ lower q +:+ post) as Hlike.
  { intros c. unfold ilike. rewrite !lower_app.
    change (lower "%") with "%". rewrite !str_app_assoc.
    rewrite like_percent_split. split.
    - intros (a & b & Hc & Hb).
      apply like_plain_split in Hb as (t & -> & Ht);
        [|now rewrite all_plain_lower].
      apply like_percent_split in Ht as (a' & b' & -> & Hb').
      apply like_plain_split in Hb' as (t' & -> & _);
        [|now rewrite all_plain_lower].
      now exists a, a', t'.
    - intros (pre & mid & post & ->).
      exists pre, (lower p +:+ mid +:+ lower q +:+ post). split; [reflexivity|].
      apply like_plain_split; [now rewrite all_plain_lower|].
      eexists. split; [reflexivity|].
      apply like_percent_split. exists mid, (lower q +:+ post).
      split; [reflexivity|].
      apply like_plain_split; [now rewrite all_plain_lower|].
      exists post. split; [reflexivity|]. apply like_percent. }
  rewrite <- Hlike.
  rewrite filtered_scope in Hin |- *.
  rewrite !list_elem_of_In, !List.filter_In in *.
  destruct Hin as [Hscope Hm]. unfold matches_filters in *.
  assert (str_truthy (Some (p +:+ "%" +:+ q)) = Some (p +:+ "%" +:+ q)) as ->.
  { simpl. destruct p; reflexivity. }
  change (str_truthy None) with (@None string) in Hm. cbv iota beta in Hm.
  rewrite andb_true_l in Hm. rewrite Hm, andb_true_r. tauto.
Qed.

(** A search for a lone percent sign selects every message. *)
Lemma search_percent_is_wildcard_witness :
  Forall (fun m => m ∈ filtered talk_db (Some ("" +:+ "%" +:+ "")) None false)
    (filtered talk_db None None false).
Proof.
  apply Forall_forall. intros m Hm.
  apply (search_percent_is_wildcard talk_db "" "" None false m
           eq_refl eq_refl Hm).
  exists (lower (content m)), "", "". symmetry. apply str_app_nil_r.
Defined.

(** ** get_messages_by_role *)

Lemma insert_asc_perm (m : Message) (l : list Message) :
  insert_asc m l ≡ₚ m :: l.
Proof.
  induction l as [|x l IH]; simpl; [reflexivity|].
  destruct (created_at m <=? created_at x); [reflexivity|].
  rewrite IH. apply Permutation_swap.
Qed.

Lemma order_asc_perm (l : list Message) : order_by_created_at l ≡ₚ l.
Proof.
  induction l as [|x l IH]; simpl; [reflexivity|].
  now rewrite insert_asc_perm, IH.
Qed.

Lemma insert_asc_sorted (m : Message) (l : list Message) :
  oldest_first l -> oldest_first (insert_asc m l).
Proof.
  unfold oldest_first. induction l as [|x l IH]; intros Hs; simpl.
  - repeat constructor.
  - destruct (Z.leb_spec (created_at m) (created_at x)).
    + constructor; [exact Hs|]. now constructor.
    + apply Sorted_inv in Hs as [Hs Hd]. constructor; [now apply IH|].
      destruct l as [|y l]; simpl.
      * constructor. lia.
      * destruct (Z.leb_spec (created_at m) (created_at y)).
        -- constructor. lia.
        -- constructor. now apply HdRel_inv in Hd.
Qed.

Lemma order_asc_sorted (l : list Message) :
  oldest_first (order_by_created_at l).
Proof.
  induction l as [|x l IH]; simpl; [constructor|].
  now apply insert_asc_sorted.
Qed.

Lemma oldest_first_take (k : nat) (l : list Message) :
  oldest_first l -> oldest_first (take k l).
Proof.
  unfold oldest_first. revert l.
  induction k as [|k IH]; intros [|x l] Hs; simpl; try constructor.
  - apply IH. now apply Sorted_inv in Hs as [Hs _].
  - apply Sorted_inv in Hs as [_ Hd].
    destruct l as [|y l], k as [|k]; simpl; constructor.
    now apply HdRel_inv in Hd.
Qed.

(** [get_messages_by_role] returns the stored messages whose role is the
    lower-cased argument, oldest first, from every conversation.  Without
    a limit, or with a limit of zero or less, it returns all of them (there
    is no cap); with a positive limit it returns the oldest [limit] of
    them. *)
Theorem messages_by_role_oldest_first db r limit :
  engine_error db = None ->
  exists l,
    get_messages_by_role db r limit = Ok l
    /\ oldest_first l
    /\ Forall (fun m => role m = lower r /\ m ∈ rows db) l
    /\ (limit = None \/ (exists n, limit = Some n /\ n <= 0) ->
        l ≡ₚ List.filter (fun m => String.eqb (role m) (lower r)) (rows db))
    /\ (forall n, limit = Some n -> 0 < n ->
        l = take (Z.to_nat n)
              (order_by_created_at
                 (List.filter (fun m => String.eqb (role m) (lower r))
                    (rows db)))).
Proof.
  intros He. unfold get_messages_by_role. rewrite He.
  set (q := order_by_created_at
              (List.filter (fun m => String.eqb (role m) (lower r)) (rows db))).
  assert (oldest_first q) as Hs by apply order_asc_sorted.
  assert (Forall (fun m => role m = lower r /\ m ∈ rows db) q) as Hr.
  { unfold q. rewrite order_asc_perm. apply Forall_forall. intros m Hm.
    apply list_elem_of_In, List.filter_In in Hm as [Hin Hm].
    split; [now apply String.eqb_eq|now apply list_elem_of_In]. }
  assert (q ≡ₚ List.filter (fun m => String.eqb (role m) (lower r)) (rows db))
    as Hp by apply order_asc_perm.
  destruct limit as [n|].
  - destruct (Z.eqb_spec n 0), (Z.ltb_spec 0 n); simpl; try lia.
    + eexists. split; [reflexivity|]. split; [exact Hs|]. split; [exact Hr|].
      split; [auto|]. intros n' [= <-]. lia.
    + eexists. split; [reflexivity|].
      split; [now apply oldest_first_take|].
      split; [now apply Forall_take|]. split.
      * intros [Hx|(n' & [= <-] & Hn)]; [discriminate|lia].
      * intros n' [= <-] _. reflexivity.
    + eexists. split; [reflexivity|]. split; [exact Hs|]. split; [exact Hr|].
      split; [auto|]. intros n' [= <-]. lia.
  - eexists. split; [reflexivity|]. split; [exact Hs|]. split; [exact Hr|].
    split; [auto|]. intros n' [=].
Qed.

Lemma messages_by_role_oldest_first_witness :
  exists l,
    get_messages_by_role (sample_db 150) "USER" None = Ok l
    /\ length l = 150%nat.
Proof.
  destruct (messages_by_role_oldest_first (sample_db 150) "USER" None eq_refl)
    as (l & Hl & _ & _ & Hall & _).
  exists l. split; [exact Hl|].
  rewrite (Hall (or_introl eq_refl)). reflexivity.
Defined.

(** ** get_chat_summary *)

Lemma count_roles_disjoint (l : list Message) :
  count_role "user" l + count_role "assistant" l <= Z.of_nat (length l).
Proof.
  unfold count_role. induction l as [|m l IH]; simpl; [lia|].
  destruct (String.eqb (role m) "user") eqn:E1.
  - apply String.eqb_eq in E1. rewrite E1. simpl. simpl in IH. lia.
  - destruct (String.eqb (role m) "assistant"); simpl; simpl in IH; lia.
Qed.

Lemma head_desc_is_latest (l : list Message) (x : Message) :
  head (order_by_created_at_desc l) = Some x ->
  Forall (fun m => created_at m <= created_at x) l.
Proof.
  intros H. pose proof (order_desc_sorted l) as Hs.
  rewrite <- (order_desc_perm l).
  destruct (order_by_created_at_desc l) as [|y q]; [discriminate|].
  injection H as ->. unfold newest_first in Hs.
  apply Sorted_StronglySorted in Hs; [|intros a b c; lia].
  apply StronglySorted_inv in Hs as [_ Hs].
  constructor; [lia|exact Hs].
Qed.

Lemma head_asc_is_earliest (l : list Message) (x : Message) :
  head (order_by_created_at l) = Some x ->
  Forall (fun m => created_at x <= created_at m) l.
Proof.
  intros H. pose proof (order_asc_sorted l) as Hs.
  rewrite <- (order_asc_perm l).
  destruct (order_by_created_at l) as [|y q]; [discriminate|].
  injection H as ->. unfold oldest_first in Hs.
  apply Sorted_StronglySorted in Hs; [|intros a b c; lia].
  apply StronglySorted_inv in Hs as [_ Hs].
  constructor; [lia|exact Hs].
Qed.

(** The summary counts every row in its total, separators included, so
    the numbers of user and assistant messages add up to the total at
    most.  The first and the last message are the earliest and the latest
    timestamp of the table: every stored timestamp lies between them.  For
    an empty table the counts and the average are zero and there is no
    first or last message. *)
Theorem summary_counts_and_range db :
  engine_error db = None ->
  exists sm,
    get_chat_summary db = Ok sm
    /\ total_messages sm = Z.of_nat (length (rows db))
    /\ user_messages sm + assistant_messages sm <= total_messages sm
    /\ (rows db = [] ->
        sm = {| total_messages := 0; user_messages := 0;
                assistant_messages := 0; first_message := None;
                last_message := None; avg_message_length := 0%Q |})
    /\ (rows db <> [] ->
        exists t0 t1,
          first_message sm = Some t0 /\ last_message sm = Some t1
          /\ Forall (fun m => t0 <= created_at m <= t1) (rows db)).
Proof.
  intros He. unfold get_chat_summary. rewrite He. eexists.
  split; [reflexivity|]. cbn [total_messages user_messages assistant_messages
                              first_message last_message].
  split; [reflexivity|]. split; [apply count_roles_disjoint|]. split.
  - intros ->. reflexivity.
  - intros Hne.
    destruct (head (order_by_created_at (rows db))) as [a|] eqn:Ha.
    + destruct (head (order_by_created_at_desc (rows db))) as [b|] eqn:Hb.
      * exists (created_at a), (created_at b).
        split; [reflexivity|]. split; [reflexivity|].
        pose proof (head_asc_is_earliest _ _ Ha) as H1.
        pose proof (head_desc_is_latest _ _ Hb) as H2.
        rewrite Forall_forall in H1, H2. apply Forall_forall.
        intros m Hm. split; auto.
      * exfalso. apply Hne. apply Permutation_nil_r.
        rewrite <- (order_desc_perm (rows db)).
        now destruct (order_by_created_at_desc (rows db)).
    + exfalso. apply Hne. apply Permutation_nil_r.
      rewrite <- (order_asc_perm (rows db)).
      now destruct (order_by_created_at (rows db)).
Qed.

Lemma summary_counts_and_range_witness :
  exists sm,
    get_chat_summary talk_db = Ok sm
    /\ total_messages sm = 3
    /\ user_messages sm + assistant_messages sm = 2
    /\ first_message sm = Some 1 /\ last_message sm = Some 3.
Proof.
  destruct (summary_counts_and_range talk_db eq_refl) as (sm & Hsm & _).
  exists sm. split; [exact Hsm|].
  injection Hsm as <-. repeat split.
Defined.

(** ** clear_chat_history and create_new_conversation *)

(** After [clear_chat_history] every query finds nothing: pages are
    empty with a total of zero, there is no message of any role, and the
    summary is that of an empty table.  The sequence of ids is not reset:
    the next message gets the id that was next before.  With a failing
    storage layer the call raises a storage error and the table stays as
    it was. *)
Theorem clear_empties_the_store db :
  (engine_error db = None ->
   let db' := (clear_chat_history db).2 in
   (clear_chat_history db).1 = Ok tt
   /\ rows db' = []
   /\ (forall limit offset search role cco,
         0 <= offset ->
         get_all_messages db' limit offset search role cco = Ok ([], 0))
   /\ (forall r limit, get_messages_by_role db' r limit = Ok [])
   /\ (exists sm, get_chat_summary db' = Ok sm /\ total_messages sm = 0)
   /\ (forall now r c rec db'',
         add_message db' now r c = (Ok rec, db'') ->
         d_id rec = next_id db))
  /\ (forall e,
        engine_error db = Some e ->
        exists msg,
          clear_chat_history db = (Raise (SQLAlchemyError msg), db)).
Proof.
  split.
  - intros He. unfold clear_chat_history. rewrite He. cbn [fst snd].
    split; [reflexivity|]. split; [reflexivity|]. split.
    { intros limit offset search role cco Ho.
      rewrite get_all_messages_ok by auto.
      assert (filtered {| rows := []; next_id := next_id db;
                          engine_error := None |} search role cco = []) as ->.
      { rewrite filtered_scope. unfold scope, last_separator_id. simpl.
        now destruct cco. }
      simpl. now rewrite drop_nil, take_nil. }
    split.
    { intros r limit. unfold get_messages_by_role. simpl.
      destruct limit as [n|]; [|reflexivity].
      destruct (negb (n =? 0) && (0 <? n)); [|reflexivity].
      now rewrite take_nil. }
    split; [eexists; split; reflexivity|].
    intros now r c rec db'' H.
    destruct (add_message_rows
                {| rows := []; next_id := next_id db; engine_error := None |}
                now r c) as [E|(_ & E & _)].
    + unfold add_message in H.
      destruct (negb (truthy r) || negb (isinstance_str r)); [discriminate H|].
      destruct (negb (truthy c) || negb (isinstance_str c)); [discriminate H|].
      simpl in H. injection H as <- _. reflexivity.
    + rewrite E in H. injection H as <- _. reflexivity.
  - intros e He. unfold clear_chat_history. rewrite He. eauto.
Qed.

Lemma clear_empties_the_store_witness :
  get_all_messages (clear_chat_history talk_db).2 None 0 None None false
  = Ok ([], 0)
  /\ (add_message (clear_chat_history talk_db).2 9 (PStr "user")
        (PStr "again")).1
     = Ok {| d_id := 4; d_role := "user"; d_content := "again";
             d_created_at := Some 9 |}.
Proof.
  destruct (clear_empties_the_store talk_db) as [H _].
  destruct (H eq_refl) as (_ & _ & Hq & _).
  split; [apply Hq; lia|reflexivity].
Defined.

Section NewConversation.
Variable strftime : Z -> string.

(** [create_new_conversation] writes a separator that the query of
    [get_all_messages] recognises, whatever text the clock formats to:
    with a working storage layer it answers [True] and appends one row of
    role system that matches the separator pattern, and when that row is
    later than every stored row it is the one the query takes as the start
    of the current conversation.  With a failing storage layer it answers
    [False] and the table stays as it was. *)
Theorem new_conversation_is_recognised db now now' :
  (engine_error db = None ->
   let sep := separator_row strftime db now now' in
   let db' := (create_new_conversation strftime db now now').2 in
   (create_new_conversation strftime db now now').1 = true
   /\ rows db' = rows db ++ [sep]
   /\ is_separator sep = true
   /\ (well_formed db now' -> last_separator_id db' = Some (id sep)))
  /\ (forall e,
        engine_error db = Some e ->
        create_new_conversation strftime db now now' = (false, db)).
Proof.
  split.
  - intros He. unfold create_new_conversation. rewrite He. cbn [fst snd].
    split; [reflexivity|]. split; [reflexivity|].
    pose proof (separator_row_is_separator strftime db now now') as Hsep.
    split; [exact Hsep|].
    intros (_ & Hrows & _). unfold last_separator_id. cbn [rows].
    change {| id := next_id db; role := "system";
              content := separator_prefix +:+ strftime now +:+ " ---";
              created_at := now' |}
      with (separator_row strftime db now now').
    rewrite List.filter_app. cbn [List.filter]. rewrite Hsep.
    rewrite order_desc_newest_last; [reflexivity|].
    apply Forall_forall. intros m Hm.
    apply list_elem_of_In, List.filter_In in Hm as [Hm _].
    apply list_elem_of_In in Hm.
    rewrite Forall_forall in Hrows. now apply Hrows.
  - intros e He. unfold create_new_conversation. now rewrite He.
Qed.
End NewConversation.

Lemma new_conversation_is_recognised_witness :
  last_separator_id (create_new_conversation sample_clock old_db 2 2).2
  = Some 2.
Proof.
  destruct (new_conversation_is_recognised sample_clock old_db 2 2)
    as [H _].
  destruct (H eq_refl) as (_ & _ & _ & Hl).
  apply Hl. unfold well_formed. split; [reflexivity|]. split; [|reflexivity].
  repeat constructor.
Defined.

End StoreMore.

(** * The history and export commands (app.py, exporter.py) *)

Module CommandsMore.
Import PyStr ChatDB Exporter AppCommands StoreNotions MoreNotions.
Import StringFacts StoreFacts.

Lemma last_n_app {A} (n : nat) (xs : list A) :
  exists front, xs = front ++ last_n n xs
                /\ length (last_n n xs) = Nat.min n (length xs).
Proof.
  exists (take (length xs - n) xs). unfold last_n. split.
  - symmetry. apply take_drop.
  - rewrite length_drop. lia.
Qed.

(** [history] shows at most 100 messages, all from the current
    conversation, whether or not the full history is asked for.  With a
    positive limit and without [full] it shows the end of the page that the
    query returns; the page runs from the newest message to the oldest, so
    the messages left out are the newest ones.  The [reverse] option
    changes nothing. *)
Theorem history_shows_end_of_page db limit full reverse page total :
  get_all_messages db (Some 100) 0 None None true = Ok (page, total) ->
  exists shown,
    history db limit full reverse = Ok shown
    /\ (length shown <= 100)%nat
    /\ (full = true \/ limit <= 0 -> shown = page)
    /\ (full = false -> 0 < limit ->
        exists newer,
          page = newer ++ shown
          /\ length shown = Nat.min (Z.to_nat limit) (length page))
    /\ history db limit full (negb reverse) = Ok shown.
Proof.
  intros H. unfold history. rewrite H.
  assert (length page <= 100)%nat as Hlen.
  { apply get_all_messages_page in H as (-> & _ & _).
    rewrite length_fmap, length_take. change (effective_limit (Some 100)) with 100.
    lia. }
  destruct page as [|d page].
  { exists []. split; [reflexivity|]. split; [simpl; lia|].
    split; [reflexivity|]. split; [|reflexivity].
    intros _ _. exists []. split; [reflexivity|simpl; lia]. }
  destruct full; simpl.
  - eexists. split; [reflexivity|]. split; [exact Hlen|].
    split; [reflexivity|]. split; [discriminate|reflexivity].
  - destruct (Z.ltb_spec 0 limit).
    + destruct (last_n_app (Z.to_nat limit) (d :: page)) as (front & Hf & Hl).
      eexists. split; [reflexivity|]. split.
      { rewrite Hl. lia. }
      split; [intros [?|?]; [discriminate|lia]|].
      split; [|reflexivity]. intros _ _. exists front. auto.
    + eexists. split; [reflexivity|]. split; [exact Hlen|].
      split; [reflexivity|]. split; [intros _ ?; lia|reflexivity].
Qed.

Lemma history_shows_end_of_page_witness :
  exists shown,
    history (sample_db 5) 2 false false = Ok shown
    /\ d_id <$> shown = [2; 1].
Proof.
  destruct (history_shows_end_of_page (sample_db 5) 2 false false _ _ eq_refl)
    as (shown & Hs & _).
  exists shown. split; [exact Hs|].
  injection Hs as <-. reflexivity.
Defined.

(** ** export *)

Lemma export_markdown_of_pair (messages : list message_dict * Z) :
  exists msg, export_markdown (tuple_items messages) = inl (AttributeError msg).
Proof. eexists. reflexivity. Qed.

(** The export command never writes a file and never ends normally.  It
    hands the pair returned by [get_all_messages] to [export_markdown],
    whose first step on the list inside the pair raises AttributeError;
    the command then leaves with exit code 1, having at most created the
    export directory.  A storage error of the query is not caught. *)
Theorem export_never_writes db importable pandoc format output limit :
  let '(effects, how) := export db importable pandoc format output limit in
  Forall (fun eff => eff = MkDir "exports") effects
  /\ (how = Exit 1 \/ exists e, how = Uncaught e)
  /\ (importable = true -> lower format ∈ EXPORT_FORMATS ->
      engine_error db = None ->
      effects = [MkDir "exports"] /\ how = Exit 1).
Proof.
  unfold export. destruct importable; simpl.
  2:{ split; [constructor|]. split; [now left|discriminate]. }
  destruct (bool_decide (lower format ∈ EXPORT_FORMATS)) eqn:Ef; simpl.
  2:{ split; [constructor|]. split; [now left|].
      intros _ Hin. apply bool_decide_eq_false in Ef. contradiction. }
  destruct (get_all_messages db (Some 100) 0 None None true)
    as [messages|e] eqn:Eq.
  - simpl. split; [repeat constructor|]. split; [now left|]. auto.
  - split; [constructor|]. split; [right; eauto|].
    intros _ _ He. rewrite get_all_messages_ok in Eq by (auto; lia).
    discriminate Eq.
Qed.

Lemma export_never_writes_witness :
  export talk_db true None "PDF" (Some "out") None
  = ([MkDir "exports"], Exit 1).
Proof.
  pose proof (export_never_writes talk_db true None "PDF" (Some "out") None)
    as H.
  destruct (export talk_db true None "PDF" (Some "out") None) as [effs how].
  destruct H as (_ & _ & H).
  destruct H as [-> ->]; [reflexivity| |reflexivity|reflexivity].
  apply elem_of_cons. right. apply elem_of_cons. now left.
Defined.

(** ** export_markdown *)

Lemma export_lines_rows (ms : list Message) :
  export_lines (ObjMessage <$> ms) = inr (markdown_block <$> ms).
Proof.
  induction ms as [|m ms IH]; [reflexivity|].
  rewrite !fmap_cons. cbn [export_lines]. rewrite IH. reflexivity.
Qed.

Lemma join_with_app (sep : string) (a b : list string) :
  a <> [] -> b <> [] ->
  join_with sep (a ++ b) = join_with sep a +:+ sep +:+ join_with sep b.
Proof.
  intros Ha Hb. induction a as [|x a IH]; [congruence|].
  destruct a as [|y a].
  - destruct b as [|z b]; [congruence|]. reflexivity.
  - change (join_with sep ((x :: y :: a) ++ b))
      with (x +:+ sep +:+ join_with sep ((y :: a) ++ b)).
    rewrite IH by discriminate.
    change (join_with sep (x :: y :: a))
      with (x +:+ sep +:+ join_with sep (y :: a)).
    now rewrite !str_app_assoc.
Qed.

(** [export_markdown] works on rows of the table and on nothing else.
    For rows it returns one block per message, in order, with a blank line
    between two blocks, so that exporting two lists one after the other is
    exporting them together.  If any object of the input is not a row (a
    dictionary as [get_all_messages] returns them, a list, a number) the
    call raises AttributeError and returns no text at all. *)
Theorem export_markdown_rows_only :
  (forall ms,
     export_markdown (ObjMessage <$> ms)
     = inr (join_with (newline +:+ newline) (markdown_block <$> ms)))
  /\ (forall a b ta tb,
        a <> [] -> b <> [] ->
        export_markdown (ObjMessage <$> a) = inr ta ->
        export_markdown (ObjMessage <$> b) = inr tb ->
        export_markdown (ObjMessage <$> (a ++ b))
        = inr (ta +:+ (newline +:+ newline) +:+ tb))
  /\ (forall objs o,
        o ∈ objs -> (forall m, o <> ObjMessage m) ->
        exists msg, export_markdown objs = inl (AttributeError msg)).
Proof.
  assert (forall ms,
            export_markdown (ObjMessage <$> ms)
            = inr (join_with (newline +:+ newline) (markdown_block <$> ms)))
    as Hrows.
  { intros ms. unfold export_markdown. now rewrite export_lines_rows. }
  split; [exact Hrows|]. split.
  - intros a b ta tb Ha Hb Hta Htb.
    rewrite Hrows in Hta, Htb |- *. injection Hta as <-. injection Htb as <-.
    rewrite fmap_app, join_with_app; [reflexivity| |];
      intros E; apply fmap_nil_inv in E; contradiction.
  - intros objs o Hin Hno. unfold export_markdown.
    assert (exists msg, export_lines objs = inl (AttributeError msg)) as [msg ->];
      [|eauto].
    induction objs as [|x objs IH]; [inversion Hin|].
    apply elem_of_cons in Hin as [<-|Hin].
    + destruct o as [m| | |]; [now destruct (Hno m)| | |];
        simpl; eauto.
    + cbn [export_lines]. destruct (export_line x) as [e|line] eqn:El.
      * unfold export_line in El. destruct x; simpl in El;
          try (injection El as <-; eauto); discriminate.
      * destruct (IH Hin) as [msg ->]. eauto.
Qed.

Lemma export_markdown_rows_only_witness :
  export_markdown (ObjMessage <$> rows talk_db)
  = inr (join_with (newline +:+ newline) (markdown_block <$> rows talk_db))
  /\ exists msg,
       export_markdown (ObjDict <$> (to_dict <$> rows talk_db))
       = inl (AttributeError msg).
Proof.
  destruct export_markdown_rows_only as (Hrows & _ & Hfail).
  split; [apply Hrows|].
  apply (Hfail _ (ObjDict (to_dict (question_row empty_db 1 "old")))).
  - apply elem_of_cons. now left.
  - discriminate.
Defined.

End CommandsMore.

(** * The chunk consumer and the ask command, continued *)

Module AskMore.
Import PyStr Groq ChatDB App Notions StoreNotions AppNotions MoreNotions.
Import StringFacts StreamerFacts StoreFacts.




Section Consumer.
Variable client : request -> api_response.
Variables (inputs : list user_input) (t0 t1 : Q).
Variables (messages : list message) (model : string).
Variables (max_tokens : Z) (temperature : Q).

Abbreviation events :=
  (yields (stream_response client messages model temperature max_tokens
             max_chunk_size (Some on_chunk_callback) tt).1.1).


End Consumer.


(** ** ask *)

Lemma asks_nonempty (question : string) :
  asks question -> is_empty question = false.
Proof. intros [H _]. now destruct question. Qed.

Lemma add_text (db : database) (now : Z) (r text : string) :
  engine_error db = None -> is_empty r = false -> is_empty text = false ->
  add_message db now (PStr r) (PStr text)
  = (Ok (to_dict {| id := next_id db; role := lower r; content := text;
                    created_at := now |}),
     {| rows := rows db ++ [{| id := next_id db; role := lower r;
                               content := text; created_at := now |}];
        next_id := next_id db + 1; engine_error := None |}).
Proof.
  intros He Hr Ht. unfold add_message. simpl. rewrite Hr, Ht, He. reflexivity.
Qed.


Lemma ask_unfold client inputs t0 t1 now1 now2 db question model
    temperature max_tokens :
  asks question -> engine_error db = None ->
  let db1 := {| rows := rows db ++ [question_row db now1 question];
                next_id := next_id db + 1; engine_error := None |} in
  exists page total,
    get_all_messages db1 (Some 20) 0 None None true = Ok (page, total)
    /\ ask_request db now1 question model temperature max_tokens
       = Some (request_of (to_api <$> page) model (clamp01 temperature)
                 max_tokens)
    /\ ask client inputs t0 t1 now1 now2 db question model temperature
         max_tokens
       = let '(response, metadata) :=
           process_stream client inputs t0 t1 (to_api <$> page) model
             max_tokens (clamp01 temperature) in
         if negb (get_truthy metadata "interrupted")
            && negb (get_truthy metadata "error")
         then
           match add_message db1 now2 (PStr "assistant") (PStr response) with
           | (Raise _, db2) =>
               {| exit_code := Some 1; db_after := db2;
                  returned := Some (response, metadata) |}
           | (Ok _, db2) =>
               {| exit_code := None; db_after := db2;
                  returned := Some (response, metadata) |}
           end
         else
           {| exit_code := None; db_after := db1;
              returned := Some (response, metadata) |}.
Proof.
  intros Hasks He db1.
  pose proof (asks_nonempty question Hasks) as Hne.
  destruct Hasks as [Hblank Hword].
  pose proof (add_text db now1 "user" question He eq_refl Hne) as Hadd.
  change (lower "user") with "user" in Hadd.
  fold (question_row db now1 question) in Hadd. fold db1 in Hadd.
  eexists _, _. split; [apply get_all_messages_ok; [lia|reflexivity]|].
  split.
  - unfold ask_request. rewrite Hadd.
    rewrite get_all_messages_ok by (try lia; reflexivity). reflexivity.
  - unfold ask. rewrite Hblank.
    rewrite (bool_decide_eq_false_2 _ Hword). rewrite Hadd.
    rewrite get_all_messages_ok by (try lia; reflexivity). reflexivity.
Qed.

Section Ask.
Variable client : request -> api_response.
Variables (inputs : list user_input) (t0 t1 : Q) (now1 now2 : Z).
Variables (db : database) (question model : string).
Variables (temperature : Q) (max_tokens : Z).

Abbreviation outcome :=
  (ask client inputs t0 t1 now1 now2 db question model temperature
     max_tokens).

End Ask.


(** ** What ask does to the store *)

Lemma add_message_appends db now r c :
  exists added,
    rows (add_message db now (PStr r) (PStr c)).2 = rows db ++ added
    /\ (added = []
        \/ added = [{| id := next_id db; role := lower r; content := c;
                       created_at := now |}]).
Proof.
  destruct (add_message_rows db now (PStr r) (PStr c)) as [->|(-> & _)].
  - exists []. rewrite app_nil_r. auto.
  - eexists. split; [reflexivity|]. now right.
Qed.

Section Ask.
Variable client : request -> api_response.
Variables (inputs : list user_input) (t0 t1 : Q) (now1 now2 : Z).
Variables (db : database) (question model : string).
Variables (temperature : Q) (max_tokens : Z).

Abbreviation outcome' :=
  (ask client inputs t0 t1 now1 now2 db question model temperature
     max_tokens).

(** [ask] only ever appends to the table: whatever the question, the
    stream and the user do, the rows that were stored stay as they are and
    at most two rows are added, the question with role user and then the
    response with role assistant.  When the command leaves with exit code
    0 (the question was a word for leaving) nothing is added. *)
Theorem ask_only_appends :
  exists added,
    rows (db_after outcome') = rows db ++ added
    /\ (added = []
        \/ added = [question_row db now1 question]
        \/ exists response,
             added = [question_row db now1 question;
                      {| id := next_id db + 1; role := "assistant";
                         content := response; created_at := now2 |}])
    /\ (exit_code outcome' = Some 0 -> added = []).
Proof.
  unfold ask.
  destruct (is_empty (strip question)); cbn [db_after exit_code].
  { exists []. rewrite app_nil_r. split; [reflexivity|]. split; auto. }
  destruct (bool_decide _); cbn [db_after exit_code].
  { exists []. rewrite app_nil_r. split; [reflexivity|]. split; auto. }
  destruct (add_message_rows db now1 (PStr "user") (PStr question))
    as [E|(E & Eall & _)].
  - destruct (add_message db now1 (PStr "user") (PStr question))
      as [[rec|e] db1] eqn:E1; simpl in E; subst db1;
      cbn [db_after exit_code].
    + exfalso. unfold add_message in E1.
      destruct (negb (truthy (PStr "user")) || _); [discriminate|].
      destruct (negb (truthy (PStr question)) || _); [discriminate|].
      destruct (engine_error db) eqn:He; [discriminate|].
      injection E1 as _ E1. apply (f_equal rows) in E1. simpl in E1.
      apply (f_equal length) in E1. rewrite length_app in E1.
      simpl in E1. lia.
    + exists []. rewrite app_nil_r. split; [reflexivity|].
      split; [auto|discriminate].
  - rewrite Eall. rewrite E. clear E Eall.
    change (lower (str_of (PStr "user"))) with "user".
    change (str_of (PStr question)) with question.
    fold (question_row db now1 question).
    set (db1 := {| rows := rows db ++ [question_row db now1 question];
                   next_id := next_id db + 1; engine_error := None |}).
    destruct (get_all_messages db1 (Some 20) 0 None None true)
      as [[page total]|e]; cbn [db_after exit_code].
    2:{ eexists. split; [reflexivity|]. split; [auto|discriminate]. }
    destruct (process_stream _ _ _ _ _ _ _ _) as [response metadata].
    destruct (negb _ && negb _); cbn [db_after exit_code].
    2:{ eexists. split; [reflexivity|]. split; [auto|discriminate]. }
    destruct (add_message_appends db1 now2 "assistant" response)
      as (added & Hrows & Hadded).
    destruct (add_message db1 now2 (PStr "assistant") (PStr response))
      as [[rec|e] db2]; cbn [db_after exit_code]; simpl in Hrows;
      rewrite Hrows, <- app_assoc;
      (eexists; split; [reflexivity|]; split; [|discriminate]);
      (destruct Hadded as [->| ->]; [right; left; reflexivity|]);
      right; right; eexists; reflexivity.
Qed.

(** A response that [process_stream] marks as interrupted or as failed is
    not stored: [ask] keeps the question alone and returns normally. *)
Theorem ask_skips_marked_response response metadata :
  asks question -> engine_error db = None ->
  returned outcome' = Some (response, metadata) ->
  get_truthy metadata "interrupted" = true
  \/ get_truthy metadata "error" = true ->
  exit_code outcome' = None
  /\ rows (db_after outcome') = rows db ++ [question_row db now1 question].
Proof.
  intros Hasks He.
  destruct (ask_unfold client inputs t0 t1 now1 now2 db question model
              temperature max_tokens Hasks He)
    as (page & total & _ & _ & ->).
  destruct (process_stream _ _ _ _ _ _ _ _) as [resp md].
  destruct (negb (get_truthy md "interrupted")
            && negb (get_truthy md "error")) eqn:Hguard.
  - apply andb_true_iff in Hguard as [H1 H2].
    apply negb_true_iff in H1, H2.
    destruct (add_message _ _ _ _) as [[rec|e] db2]; cbn [returned];
      intros [= _ <-] [H|H]; congruence.
  - cbn [returned exit_code db_after rows]. auto.
Qed.
End Ask.

(** Ctrl-C at the pause, and the end of the input at the pause. *)
Lemma ask_skips_marked_response_witness :
  rows (db_after (sample_ask long_stream [CtrlC]))
  = [{| id := 1; role := "user"; content := "hola"; created_at := 10 |}]
  /\ rows (db_after (sample_ask long_stream [EndOfInput]))
     = [{| id := 1; role := "user"; content := "hola"; created_at := 10 |}].
Proof.
  assert (asks "hola") as Hasks.
  { split; [reflexivity|]. intros H.
    repeat (apply elem_of_cons in H as [H|H]; [discriminate H|]).
    inversion H. }
  split.
  - refine (proj2 (ask_skips_marked_response long_stream [CtrlC] 0 1 10 20
                     empty_db "hola" DEFAULT_MODEL (3 # 10) 8192
                     long_fragment (<["interrupted" := VBool true]> ∅)
                     Hasks eq_refl _ (or_introl eq_refl))).
    vm_compute. reflexivity.
  - refine (proj2 (ask_skips_marked_response long_stream [EndOfInput] 0 1 10 20
                     empty_db "hola" DEFAULT_MODEL (3 # 10) 8192
                     long_fragment
                     (<["error" := VStr "EOF when reading a line"]> ∅)
                     Hasks eq_refl _ (or_intror eq_refl))).
    vm_compute. reflexivity.
Defined.

(** ** The request of ask *)









Section Request.
Variables (db : database) (now1 : Z) (question model : string).
Variables (temperature : Q) (max_tokens : Z).

End Request.


(** ** A completion call that fails *)

Section Failure.
Context {S : Type}.
Variable chunk_size : Z.
Variable on_chunk : option (@callback S).
Hypothesis Hcont : always_continues on_chunk.


Variable client : request -> api_response.
Variables (model : string) (temperature : Q) (max_tokens : Z).

End Failure.




Section FailedAsk.
Variable client : request -> api_response.
Variables (inputs : list user_input) (t0 t1 : Q) (now1 now2 : Z).
Variables (db : database) (question model : string).
Variables (temperature : Q) (max_tokens : Z).

Abbreviation failed_outcome :=
  (ask client inputs t0 t1 now1 now2 db question model temperature
     max_tokens).

End FailedAsk.


End AskMore.

(** * The interactive session *)

Module InteractiveMore.
Import PyStr Groq ChatDB App Interactive.
Import Notions StoreNotions AppNotions MoreNotions.
Import StringFacts StoreFacts.

(** ** export_to_markdown *)





Section MarkdownFile.
Variable isoformat : Z -> string.

End MarkdownFile.


(** ** clear_conversation *)


Section Clear.
Variable strftime : Z -> string.

End Clear.


End InteractiveMore.
